(** * Inspector.js: frame statistics, display cycles, the viewer and the console

    A shallow embedding of [src/jsm/inspector/Inspector.js] (the three.js
    inspector overlay).  The class keeps

    - [statsData], a [Map] from call ids ([cid]) to mutable statistic
      objects, filled by [getStatsData] and [resolveStats];
    - [canvasNodes], a [Map] from node objects to viewer bundles, filled by
      [getCanvasDataByNode];
    - two display cycles (text and graph) advanced by [updateCycle];
    - [deltaTime] and [softDeltaTime], written by [resolveFrame];
    - [once], the memo of [resolveConsoleOnce], through which [computeAsync]
      and [resolveViewer] send their messages.

    Numbers.  JavaScript numbers are IEEE-754 binary64 values.  The
    embedding is written once over an interface [JsNumber] of the operators
    the file uses and is run at two instances: [float] (binary64, what the
    program computes) and [Qc] (exact rationals, the same operators without
    rounding).  What depends on no law of arithmetic is proved for every
    instance, binary64 included; what holds of binary64 for a reason of
    its own is proved from the specification of the primitive floats
    ([Prim2SF] and the operations on [spec_float]); what depends on a law
    states it ([OrderedNumber], [ExactNumber]); where binary64 breaks a
    property, the program is evaluated in binary64 on an input that shows
    it.

    State.  Objects are mutable and shared: the store of statistic objects
    is a [gmap] by call id and every write through a reference is an
    [alter] at its key, so that two references to one object alias.  The
    methods take the state they read and return the state they leave.

    What the file imports.  [getFrameById] and [nodeFrame] come from the
    superclass, [splitPath] and [splitCamelCase] from [./ui/utils.js]: they
    are parameters.  [ease], from [./ui/utils.js] too, is modelled from the
    specification.  The tabs of the user interface and the browser console
    are seen through the calls made to them, the document through the
    parent elements [init] reads and sets.  [setRenderer] (a call to the
    superclass and a promise) and [createParameters] (calls to the
    parameters tab only) are not modelled.

    The file has the model first, then the reference functions and
    predicates the statements use, the example inputs, the lemmas, the
    theorems for the claims C1 to C10 and the further properties X2 to
    X22, and last their counterexamples and instances. *)

From Stdlib Require Import ZArith QArith Qcanon Floats Lia Permutation.
From stdpp Require Import gmap strings list fin_maps relations.

Set Warnings "-inexact-float,-register-all".

(** ** Numbers *)

(** The operators and literals of [Inspector.js], for a number type [A],
    and the product that the model of [ease] needs. *)
Class JsNumber (A : Type) := {
  num_zero : A;                  (* the literal 0 *)
  num_add : A → A → A;           (* x + y *)
  num_sub : A → A → A;           (* x - y *)
  num_mul : A → A → A;           (* x * y, in [ease] only *)
  num_div : A → A → A;           (* x / y *)
  num_ltb : A → A → bool;        (* x < y *)
  num_geb : A → A → bool;        (* x >= y *)
  num_eqb : A → A → bool;        (* x === y, on numbers *)
  lit_0_25 : A;                  (* the literal .25 *)
  lit_0_05 : A;                  (* the literal .05 *)
  lit_0_1 : A;                   (* the literal 0.1 *)
  lit_1000 : A                   (* the literal 1000 *)
}.

(** binary64: the arithmetic of the JavaScript engine. *)
#[export] Instance float_JsNumber : JsNumber float := {
  num_zero := 0%float;
  num_add := PrimFloat.add;
  num_sub := PrimFloat.sub;
  num_mul := PrimFloat.mul;
  num_div := PrimFloat.div;
  num_ltb := PrimFloat.ltb;
  num_geb x y := PrimFloat.leb y x;
  num_eqb := PrimFloat.eqb;
  lit_0_25 := 0.25%float;
  lit_0_05 := 0.05%float;
  lit_0_1 := 0.1%float;
  lit_1000 := 1000%float
}.

(** Exact rationals: the same operators without rounding. *)
#[export] Instance Qc_JsNumber : JsNumber Qc := {
  num_zero := Q2Qc 0;
  num_add := Qcplus;
  num_sub := Qcminus;
  num_mul := Qcmult;
  num_div := Qcdiv;
  num_ltb x y := negb (Qle_bool y x);
  num_geb x y := Qle_bool y x;
  num_eqb x y := Qeq_bool x y;
  lit_0_25 := Q2Qc 0.25;
  lit_0_05 := Q2Qc 0.05;
  lit_0_1 := Q2Qc 0.1;
  lit_1000 := Q2Qc 1000
}.

(** A property of an object is a number or absent ([undefined]).  Arithmetic
    on an absent operand yields [NaN] in JavaScript; [None] stands for both,
    which no operator of this file tells apart: [+] and [-] propagate it,
    and [<], [>=] and [===] against a number are false on it. *)
Definition val (A : Type) := option A.

Section Values.
Context {A : Type} `{JsNumber A}.

Definition val_add (x y : val A) : val A :=
  match x, y with Some a, Some b => Some (num_add a b) | _, _ => None end.

Definition val_sub (x y : val A) : val A :=
  match x, y with Some a, Some b => Some (num_sub a b) | _, _ => None end.

Definition val_div (x y : val A) : val A :=
  match x, y with Some a, Some b => Some (num_div a b) | _, _ => None end.

Definition val_ltb (x y : val A) : bool :=
  match x, y with Some a, Some b => num_ltb a b | _, _ => false end.

Definition val_geb (x y : val A) : bool :=
  match x, y with Some a, Some b => num_geb a b | _, _ => false end.

Definition val_eqb (x y : val A) : bool :=
  match x, y with Some a, Some b => num_eqb a b | _, _ => false end.

End Values.

(** ** binary64 values *)

(** A binary64 value that is a number and not an infinity. *)
Definition finite64 (x : float) : bool :=
  match Prim2SF x with
  | S754_zero _ | S754_finite _ _ _ => true
  | _ => false
  end.

(** The rational number a finite binary64 value stands for, and the sum
    of such numbers without rounding. *)
Definition exactValue (x : float) : Q :=
  match Prim2SF x with
  | S754_finite s m e => (inject_Z (cond_Zopp s (Zpos m)) * Qpower 2 e)%Q
  | _ => 0%Q
  end.

Definition exactSum (l : list float) : Q :=
  fold_right (λ x q, (exactValue x + q)%Q) 0%Q l.

(** ** Sample trees and statistic objects *)

Section Inspector.
Context {A : Type} `{JsNumber A}.
Context {K : Type} `{Countable K}.

(** A statistics sample as [resolveStats] reads it: [stats.cid],
    [stats.cpu], [stats.gpu] and [stats.children]. *)
Inductive SampleNode : Type :=
  Sample (cid : K) (cpu gpu : A) (children : list SampleNode).

Definition cid (s : SampleNode) : K := let 'Sample k _ _ _ := s in k.
Definition cpu (s : SampleNode) : A := let 'Sample _ c _ _ := s in c.
Definition gpu (s : SampleNode) : A := let 'Sample _ _ g _ := s in g.
Definition children (s : SampleNode) : list SampleNode :=
  let 'Sample _ _ _ cs := s in cs.

(** The object [getStatsData] stores: created as the empty object and given
    its properties by [resolveStats]. *)
Record StatEntry : Type := mkStatEntry {
  data_cpu : val A;
  data_gpu : val A;
  data_total : val A;
  data_initialized : bool
}.

(** The empty object. *)
Definition emptyEntry : StatEntry := mkStatEntry None None None false.

Definition set_cpu (v : val A) (d : StatEntry) : StatEntry :=
  mkStatEntry v (data_gpu d) (data_total d) (data_initialized d).
Definition set_gpu (v : val A) (d : StatEntry) : StatEntry :=
  mkStatEntry (data_cpu d) v (data_total d) (data_initialized d).
Definition set_total (v : val A) (d : StatEntry) : StatEntry :=
  mkStatEntry (data_cpu d) (data_gpu d) v (data_initialized d).
Definition set_initialized (b : bool) (d : StatEntry) : StatEntry :=
  mkStatEntry (data_cpu d) (data_gpu d) (data_total d) b.

(** [this.statsData].  The map binds a key once (in [getStatsData]) and
    never rebinds or deletes it, so the object a reference [data] points to
    is the one stored under its key: a write through [data] is an [alter]
    at that key and a read through it is a lookup there.  Two references
    obtained for the same [cid] alias. *)
Abbreviation Store := (gmap K StatEntry).

(** Reading property [f] of the object stored under [k]. *)
Definition field (f : StatEntry → val A) (k : K) (st : Store) : val A :=
  st !! k ≫= f.

Definition getStatsData (k : K) (st : Store) : StatEntry * Store :=
  match st !! k with
  | Some data => (data, st)
  | None => (emptyEntry, <[k := emptyEntry]> st)
  end.

(** The body of the loop over [stats.children], after the recursive call:
    [childData = getStatsData(child.cid)] and the three [+=] on [data], the
    object under [k].  Every read goes through the store, so [data] and
    [childData] alias when [ck = k]. *)
Definition addChild (k ck : K) (st : Store) : Store :=
  let st := snd (getStatsData ck st) in
  let st := alter (λ d, set_cpu (val_add (data_cpu d) (field data_cpu ck st)) d) k st in
  let st := alter (λ d, set_gpu (val_add (data_gpu d) (field data_gpu ck st)) d) k st in
  let st := alter (λ d, set_total (val_add (data_total d) (field data_total ck st)) d) k st in
  st.

(** The first part of [resolveStats]: lines 225 to 240. *)
Definition writeOwn (k : K) (c g : A) (st : Store) : Store :=
  let '(data, st) := getStatsData k st in
  let st :=
    if negb (data_initialized data)
    then alter (λ d, set_initialized true (set_gpu (Some g) (set_cpu (Some c) d))) k st
    else st in
  let st := alter (set_cpu (Some c)) k st in
  let st := alter (set_gpu (Some g)) k st in
  let st := alter (λ d, set_total (val_add (data_cpu d) (data_gpu d)) d) k st in
  st.

Fixpoint resolveStats (stats : SampleNode) (st : Store) : Store :=
  match stats with
  | Sample k c g cs =>
      let st := writeOwn k c g st in
      fold_left (λ st child, addChild k (cid child) (resolveStats child st)) cs st
  end.

(** ** Frames, display cycles and the inspector object *)

(** A frame record of the host renderer: [frame.frameId], [frame.startTime]
    and [frame.children] are read, the other five properties are written by
    [resolveFrame]. *)
Record Frame : Type := mkFrame {
  frameId : Z;
  startTime : A;
  frame_children : list SampleNode;
  frame_cpu : val A;
  frame_gpu : val A;
  frame_total : val A;
  frame_deltaTime : val A;
  frame_miscellaneous : val A
}.

Definition set_frame_cpu (v : val A) (f : Frame) : Frame :=
  mkFrame (frameId f) (startTime f) (frame_children f) v (frame_gpu f)
    (frame_total f) (frame_deltaTime f) (frame_miscellaneous f).
Definition set_frame_gpu (v : val A) (f : Frame) : Frame :=
  mkFrame (frameId f) (startTime f) (frame_children f) (frame_cpu f) v
    (frame_total f) (frame_deltaTime f) (frame_miscellaneous f).
Definition set_frame_total (v : val A) (f : Frame) : Frame :=
  mkFrame (frameId f) (startTime f) (frame_children f) (frame_cpu f)
    (frame_gpu f) v (frame_deltaTime f) (frame_miscellaneous f).
Definition set_frame_deltaTime (v : val A) (f : Frame) : Frame :=
  mkFrame (frameId f) (startTime f) (frame_children f) (frame_cpu f)
    (frame_gpu f) (frame_total f) v (frame_miscellaneous f).
Definition set_frame_miscellaneous (v : val A) (f : Frame) : Frame :=
  mkFrame (frameId f) (startTime f) (frame_children f) (frame_cpu f)
    (frame_gpu f) (frame_total f) (frame_deltaTime f) v.

(** One entry of [this.displayCycle]. *)
Record Cycle : Type := mkCycle {
  needsUpdate : bool;
  duration : A;
  time : A
}.

Definition set_needsUpdate (b : bool) (c : Cycle) : Cycle :=
  mkCycle b (duration c) (time c).
Definition set_time (t : A) (c : Cycle) : Cycle :=
  mkCycle (needsUpdate c) (duration c) t.

(** What [Inspector.js] takes from the superclass [RendererInspector] and
    from the renderer, neither of which is part of the file: the frame
    lookup [this.getFrameById] and [this.nodeFrame.deltaTime]. *)
Record Host : Type := mkHost {
  getFrameById : Z → option Frame;
  nodeFrame_deltaTime : A
}.

(** The state of an [Inspector] object that the modelled methods read or
    write. *)
Record Inspector : Type := mkInspector {
  deltaTime : val A;
  softDeltaTime : val A;
  statsData : gmap K StatEntry;
  displayCycle_text : Cycle;
  displayCycle_graph : Cycle
}.

Definition set_deltaTime (v : val A) (i : Inspector) : Inspector :=
  mkInspector v (softDeltaTime i) (statsData i) (displayCycle_text i) (displayCycle_graph i).
Definition set_softDeltaTime (v : val A) (i : Inspector) : Inspector :=
  mkInspector (deltaTime i) v (statsData i) (displayCycle_text i) (displayCycle_graph i).
Definition set_statsData (m : gmap K StatEntry) (i : Inspector) : Inspector :=
  mkInspector (deltaTime i) (softDeltaTime i) m (displayCycle_text i) (displayCycle_graph i).
Definition set_displayCycle_text (c : Cycle) (i : Inspector) : Inspector :=
  mkInspector (deltaTime i) (softDeltaTime i) (statsData i) c (displayCycle_graph i).
Definition set_displayCycle_graph (c : Cycle) (i : Inspector) : Inspector :=
  mkInspector (deltaTime i) (softDeltaTime i) (statsData i) (displayCycle_text i) c.

(** The calls [resolveFrame] makes into the user interface, in order:
    [setText( id, this.softFPS.toFixed() )] with the number that is
    formatted, [this.performance.updateText( this, frame )] and
    [this.performance.updateGraph( this, frame )] with the inspector and the
    frame as they are at the call. *)
Inductive UiCall : Type :=
  | SetText (id : string) (softFPS : val A)
  | UpdateText (this : Inspector) (frame : Frame)
  | UpdateGraph (this : Inspector) (frame : Frame).

Definition EASE_FACTOR : A := lit_0_1.

(** The constructor, lines 43 to 66, for the properties of the record. *)
Definition newInspector : Inspector := {|
  deltaTime := Some num_zero;
  softDeltaTime := Some num_zero;
  statsData := ∅;
  displayCycle_text := {| needsUpdate := false; duration := lit_0_25; time := num_zero |};
  displayCycle_graph := {| needsUpdate := false; duration := lit_0_05; time := num_zero |}
|}.

(** The getters [fps] and [softFPS]. *)
Definition fps (this : Inspector) : val A :=
  val_div (Some lit_1000) (deltaTime this).
Definition softFPS (this : Inspector) : val A :=
  val_div (Some lit_1000) (softDeltaTime this).

(** [updateCycle( cycle )]; what it reads from the receiver,
    [this.nodeFrame.deltaTime], is its first argument here. *)
Definition updateCycle (delta : A) (cycle : Cycle) : Cycle :=
  let cycle := set_time (num_add (time cycle) delta) cycle in
  if num_geb (time cycle) (duration cycle)
  then set_time num_zero (set_needsUpdate true cycle)
  else cycle.

(** The coefficient of [ease]: the fraction of the way the smoothed value
    moves, from the elapsed time and the factor.  The specification leaves
    its formula open, so it is a parameter. *)
Variable easeFraction : A → A → A.

(** Modelled from the spec: [ease], imported from [./ui/utils.js], which is
    not part of the sources.  A first-order low-pass step: the result moves
    the fraction [easeFraction deltaTime factor] of the way from the
    previous smoothed value [target] toward the new sample [current]. *)
Definition ease (target current : val A) (deltaTime factor : A) : val A :=
  match target, current with
  | Some t, Some c =>
      Some (num_add t (num_mul (num_sub c t) (easeFraction deltaTime factor)))
  | _, _ => None
  end.

(** The loop of [resolveFrame] over [frame.children], lines 343 to 353. *)
Definition addStats (acc : Frame * gmap K StatEntry) (stats : SampleNode)
  : Frame * gmap K StatEntry :=
  let '(frame, st) := acc in
  let st := resolveStats stats st in
  let st := snd (getStatsData (cid stats) st) in
  let frame := set_frame_cpu (val_add (frame_cpu frame) (field data_cpu (cid stats) st)) frame in
  let frame := set_frame_gpu (val_add (frame_gpu frame) (field data_gpu (cid stats) st)) frame in
  let frame := set_frame_total (val_add (frame_total frame) (field data_total (cid stats) st)) frame in
  (frame, st).

Definition resolveFrame (host : Host) (frame : Frame) (this : Inspector)
  : Frame * Inspector * list UiCall :=
  match getFrameById host (frameId frame + 1) with
  | None => (frame, this, [])
  | Some nextFrame =>
      let frame := set_frame_cpu (Some num_zero) frame in
      let frame := set_frame_gpu (Some num_zero) frame in
      let frame := set_frame_total (Some num_zero) frame in
      let '(frame, st) := fold_left addStats (frame_children frame) (frame, statsData this) in
      let this := set_statsData st this in
      (* improve stats using next frame *)
      let frame := set_frame_deltaTime (Some (num_sub (startTime nextFrame) (startTime frame))) frame in
      let frame := set_frame_miscellaneous (val_sub (frame_deltaTime frame) (frame_total frame)) frame in
      let frame :=
        if val_ltb (frame_miscellaneous frame) (Some num_zero)
        then set_frame_miscellaneous (Some num_zero) frame
        else frame in
      let this :=
        if val_eqb (softDeltaTime this) (Some num_zero)
        then set_softDeltaTime (frame_deltaTime frame) this
        else this in
      let this := set_deltaTime (frame_deltaTime frame) this in
      let this := set_softDeltaTime
        (ease (softDeltaTime this) (frame_deltaTime frame) (nodeFrame_deltaTime host) EASE_FACTOR) this in
      let this := set_displayCycle_text (updateCycle (nodeFrame_deltaTime host) (displayCycle_text this)) this in
      let this := set_displayCycle_graph (updateCycle (nodeFrame_deltaTime host) (displayCycle_graph this)) this in
      let ui_text :=
        if needsUpdate (displayCycle_text this)
        then [SetText "fps-counter" (softFPS this); UpdateText this frame]
        else [] in
      let ui_graph :=
        if needsUpdate (displayCycle_graph this)
        then [UpdateGraph this frame]
        else [] in
      let this := set_displayCycle_text (set_needsUpdate false (displayCycle_text this)) this in
      let this := set_displayCycle_graph (set_needsUpdate false (displayCycle_graph this)) this in
      (frame, this, ui_text ++ ui_graph)
  end.

End Inspector.

(** ** The viewer cache *)

Section Viewer.
Context {A : Type}.

(** Object identity: the address of an object in the JavaScript heap. *)
Definition Ref := positive.

(** A node object as [getCanvasDataByNode] sees it at one call: which
    object it is, and what [node.id] and [node.getName()] answer then.  Two
    values with the same [node_ref] are the same object at two moments. *)
Record NodeObj : Type := mkNodeObj {
  node_ref : Ref;
  node_id : Z;
  node_getName : option string
}.

Variant ToneMapping : Type := NoToneMapping.

(** The TSL expressions the method builds. *)
Inductive TslNode : Type :=
  | tsl_node (node : Ref)
  | vec3 (x : TslNode)
  | vec4 (x : TslNode) (w : Z)
  | renderOutput (x : TslNode) (toneMapping : ToneMapping) (colorSpace : string)
  | context (x : TslNode) (inspector : bool).

Record CanvasTarget : Type := mkCanvasTarget {
  ct_ref : Ref;
  ct_canvas : Ref;
  ct_pixelRatio : A;
  ct_width : Z;
  ct_height : Z
}.

Record NodeMaterial : Type := mkNodeMaterial {
  material_ref : Ref;
  outputNode : TslNode
}.

Record QuadMesh : Type := mkQuadMesh {
  quad_ref : Ref;
  quad_material : Ref;
  quad_name : string
}.

(** The bundle stored in [this.canvasNodes]; [cd_ref] is the identity of
    the bundle object itself. *)
Record CanvasData : Type := mkCanvasData {
  cd_ref : Ref;
  cd_id : Z;
  cd_name : string;
  cd_path : list string;
  cd_node : Ref;
  cd_quad : QuadMesh;
  cd_canvasTarget : CanvasTarget;
  cd_material : NodeMaterial
}.

(** What the method reads from its surroundings. *)
Record ViewerEnv : Type := mkViewerEnv {
  devicePixelRatio : A;              (* window.devicePixelRatio *)
  outputColorSpace : string          (* this.getRenderer().outputColorSpace *)
}.

(** [this.canvasNodes] together with the heap's allocation pointer, which
    gives the objects a bundle holds (the canvas, the canvas target, the
    material, the quad and the bundle itself) their addresses.  The
    addresses stand for object identity only: what else is allocated on
    the way (the TSL nodes, the literal passed to [context], the arrays
    and closures of the callers) is not numbered here and falls under
    [step_alloc] below, and no statement counts allocations.
    [getCanvasDataByNode] touches no other property of the inspector, and
    no other method touches [canvasNodes], so the cache is kept apart from
    the record [Inspector] above. *)
Record ViewerState : Type := mkViewerState {
  canvasNodes : gmap Ref CanvasData;
  heap_next : Ref
}.

(** [splitCamelCase] and [splitPath] are imported from [./ui/utils.js],
    which is not part of the sources. *)
Variable splitCamelCase : string → string.
Variable splitPath : string → list string * string.

(** [node.getName() || '(unnamed)']: an absent or empty name is falsy. *)
Definition nameOrUnnamed (n : option string) : string :=
  match n with
  | Some (String a s) => String a s
  | _ => "(unnamed)"
  end.

Definition getCanvasDataByNode (env : ViewerEnv) (node : NodeObj) (st : ViewerState)
  : CanvasData * ViewerState :=
  match canvasNodes st !! node_ref node with
  | Some canvasData => (canvasData, st)
  | None =>
      let h := heap_next st in
      let canvas := h in
      let h := Pos.succ h in
      let canvasTarget := mkCanvasTarget h canvas (devicePixelRatio env) 140 140 in
      let h := Pos.succ h in
      let id := node_id node in
      let '(path, name) := splitPath (splitCamelCase (nameOrUnnamed (node_getName node))) in
      let output := vec4 (vec3 (tsl_node (node_ref node))) 1 in
      let output := renderOutput output NoToneMapping (outputColorSpace env) in
      let output := context output true in
      let material := mkNodeMaterial h output in
      let h := Pos.succ h in
      let quad := mkQuadMesh h (material_ref material) ("Viewer - " ++ name) in
      let h := Pos.succ h in
      let canvasData := mkCanvasData h id name path (node_ref node) quad canvasTarget material in
      let h := Pos.succ h in
      (canvasData, mkViewerState (<[node_ref node := canvasData]> (canvasNodes st)) h)
  end.

(** What happens to the cache and the heap between two calls: a call of
    [getCanvasDataByNode], or an allocation by other code. *)
Inductive viewer_step (env : ViewerEnv) : ViewerState → ViewerState → Prop :=
  | step_get node st :
      viewer_step env st (snd (getCanvasDataByNode env node st))
  | step_alloc st :
      viewer_step env st (mkViewerState (canvasNodes st) (Pos.succ (heap_next st))).

(** The cache starts empty. *)
Definition viewer_reachable (env : ViewerEnv) (st : ViewerState) : Prop :=
  ∃ h, rtc (viewer_step env) (mkViewerState ∅ h) st.

(** The objects a bundle owns. *)
Definition bundleRefs (cd : CanvasData) : list Ref :=
  [cd_ref cd; quad_ref (cd_quad cd); ct_ref (cd_canvasTarget cd);
   ct_canvas (cd_canvasTarget cd); material_ref (cd_material cd)].

(** Two bundles that share nothing: they show different nodes and own
    different objects. *)
Definition sharesNothing (cd1 cd2 : CanvasData) : Prop :=
  cd_node cd1 ≠ cd_node cd2 ∧ ∀ x, x ∈ bundleRefs cd1 → x ∉ bundleRefs cd2.

(** Every cached bundle shows the node it is cached under, and owns
    objects allocated before now. *)
Definition cache_ok (st : ViewerState) : Prop :=
  ∀ r cd, canvasNodes st !! r = Some cd →
    cd_node cd = r ∧ Forall (λ x, (x < heap_next st)%positive) (bundleRefs cd).

(** Bundles cached under different nodes share nothing. *)
Definition cache_disjoint (st : ViewerState) : Prop :=
  ∀ r1 r2 cd1 cd2, r1 ≠ r2 →
    canvasNodes st !! r1 = Some cd1 → canvasNodes st !! r2 = Some cd2 →
    sharesNothing cd1 cd2.

End Viewer.

(** ** The console *)

Section Console.
Open Scope string_scope.
Open Scope list_scope.

(** What the methods send out, in order: [this.console.addMessage( level,
    message )] to the console tab, and [console.log], [console.warn] and
    [console.error] of the browser. *)
Variant ConsoleEvent : Type :=
  | AddMessage (level message : string)
  | ConsoleLog (message : string)
  | ConsoleWarn (message : string)
  | ConsoleError (message : string).

#[global] Instance ConsoleEvent_eq_dec : EqDecision ConsoleEvent.
Proof. solve_decision. Defined.

(** [this.once], an object used as a set of keys, and the events sent so
    far, oldest first.  The methods below touch no other property of the
    inspector, so the two are kept apart from the record [Inspector]. *)
Record ConsoleState : Type := mkConsoleState {
  once : gset string;
  consoleOut : list ConsoleEvent
}.

(** The constructor: [this.once = {}], and nothing sent yet. *)
Definition newConsole : ConsoleState := mkConsoleState ∅ [].

(** [this.once[ key ] = true].  [once] is a plain object: its key
    [__proto__] is the accessor of the prototype, on which assigning [true]
    does nothing and which never reads as [true].  Every other key,
    inherited names included, becomes an own property. *)
Definition once_set (key : string) (o : gset string) : gset string :=
  if decide (key = "__proto__") then o else {[key]} ∪ o.

(** [this.once[ key ] !== true]. *)
Definition once_missing (key : string) (o : gset string) : bool :=
  bool_decide (key ∉ o).

(** [resolveConsole( type, message )]: a [switch] with three cases and no
    default. *)
Definition resolveConsole (type message : string) (out : list ConsoleEvent)
  : list ConsoleEvent :=
  if decide (type = "log") then out ++ [AddMessage "info" message; ConsoleLog message]
  else if decide (type = "warn") then out ++ [AddMessage "warn" message; ConsoleWarn message]
  else if decide (type = "error") then out ++ [AddMessage "error" message; ConsoleError message]
  else out.

Definition resolveConsoleOnce (type message : string) (st : ConsoleState) : ConsoleState :=
  let key := type +:+ message in
  if once_missing key (once st)
  then mkConsoleState (once_set key (once st)) (resolveConsole type message (consoleOut st))
  else st.

(** What the methods read from [this.getRenderer()]: [renderer.info.frame],
    the result of [renderer.getAnimationLoop()] ([None] for [null]), and
    the two flags of [renderer.backend], as conditions. *)
Record Renderer : Type := mkRenderer {
  info_frame : Z;
  getAnimationLoop : option Ref;
  isWebGPUBackend : bool;
  isWebGLBackend : bool
}.

(** The double quote, for the messages that contain it. *)
Definition dquote : string := String (Ascii.ascii_of_nat 34) EmptyString.

(** The message of [computeAsync], line 83. *)
Definition tipMessage : string :=
  "TIP: " +:+ dquote +:+ "computeAsync()" +:+ dquote +:+ " was called while a " +:+ dquote
  +:+ "setAnimationLoop()" +:+ dquote
  +:+ " is active. This is probably not necessary, use " +:+ dquote +:+ "compute()" +:+ dquote
  +:+ " instead.".

Definition computeAsync (renderer : Renderer) (st : ConsoleState) : ConsoleState :=
  let animationLoop := getAnimationLoop renderer in
  if (1 <? info_frame renderer)%Z && bool_decide (animationLoop ≠ None)
  then resolveConsoleOnce "log" tipMessage st
  else st.

End Console.

(** ** The viewer tab *)

Section ResolveViewer.
Context {A : Type}.
Variable splitCamelCase : string → string.
Variable splitPath : string → list string * string.
Open Scope string_scope.
Open Scope list_scope.

(** The calls [resolveViewer] makes to the viewer tab: [this.viewer.show()]
    and [this.viewer.update( renderer, canvasDataList )]. *)
Variant ViewerCall : Type :=
  | ViewerShow
  | ViewerUpdate (canvasDataList : list (CanvasData (A:=A))).

(** [nodes.map( node => this.getCanvasDataByNode( node ) )], from the first
    node to the last. *)
Fixpoint mapGetCanvasData (env : ViewerEnv (A:=A)) (nodes : list NodeObj) (st : ViewerState)
  : list CanvasData * ViewerState :=
  match nodes with
  | [] => ([], st)
  | node :: rest =>
      let '(canvasData, st) := getCanvasDataByNode splitCamelCase splitPath env node st in
      let '(canvasDataList, st) := mapGetCanvasData env rest st in
      (canvasData :: canvasDataList, st)
  end.

(** [resolveViewer()].  [this.currentNodes] comes from the superclass and
    [this.viewer.isVisible] from the tab: both are arguments.  The array
    that [map] builds is the list handed to the viewer; its identity and
    the closure passed to [map] are not modelled. *)
Definition resolveViewer (env : ViewerEnv (A:=A)) (renderer : Renderer)
    (currentNodes : list NodeObj) (viewer_isVisible : bool)
    (vst : ViewerState) (cst : ConsoleState)
  : ViewerState * ConsoleState * list ViewerCall :=
  let nodes := currentNodes in
  if (length nodes =? 0)%nat then (vst, cst, [])
  else if negb (isWebGPUBackend renderer) then
    (vst, resolveConsoleOnce "warn" "Inspector: Viewer is only available with WebGPU." cst, [])
  else
    let show := if negb viewer_isVisible then [ViewerShow] else [] in
    let '(canvasDataList, vst) := mapGetCanvasData env nodes vst in
    (vst, cst, show ++ [ViewerUpdate canvasDataList]).

End ResolveViewer.

(** ** Mounting the overlay *)

Section Init.
Open Scope string_scope.
Open Scope list_scope.

(** Where the two elements [init] looks at hang in the document:
    [renderer.inspector.domElement.parentElement] and
    [renderer.domElement.parentElement], [None] for [null].  After
    [parent.appendChild( child )] the parent element of the child is
    [parent]. *)
Record Dom : Type := mkDom {
  inspector_parentElement : option Ref;
  canvas_parentElement : option Ref
}.

(** [REVISION] is imported from [three/webgpu]. *)
Variable REVISION : string.

Definition init (renderer : Renderer) (dom : Dom) (cst : ConsoleState) : Dom * ConsoleState :=
  let sign := "THREE.WebGPURenderer: " +:+ REVISION +:+ " [ " +:+ dquote in
  let sign :=
    if isWebGPUBackend renderer then sign +:+ "WebGPU"
    else if isWebGLBackend renderer then sign +:+ "WebGL2"
    else sign in
  let sign := sign +:+ dquote +:+ " ]" in
  let cst := mkConsoleState (once cst) (consoleOut cst ++ [AddMessage "info" sign]) in
  let dom :=
    match inspector_parentElement dom, canvas_parentElement dom with
    | None, Some parent => mkDom (Some parent) (canvas_parentElement dom)
    | _, _ => dom
    end in
  (dom, cst).

End Init.

(** ** Laws of arithmetic *)

(** Laws of the order of numbers and of its agreement with [+] and [-].
    Exact rationals satisfy them.  binary64 does not: on [NaN] every
    comparison is false, so [num_geb_refl] and [num_ltb_geb] fail, and
    [num_geb_antisym] would identify -0 with +0.  What is proved from
    these laws is proved of arithmetic without [NaN], and says so. *)
Class OrderedNumber (A : Type) `{JsNumber A} : Prop := {
  num_ltb_geb : ∀ x y : A, num_ltb x y = negb (num_geb x y);
  num_geb_refl : ∀ x : A, num_geb x x = true;
  num_geb_trans : ∀ x y z : A,
    num_geb x y = true → num_geb y z = true → num_geb x z = true;
  num_geb_antisym : ∀ x y : A,
    num_geb x y = true → num_geb y x = true → x = y;
  num_geb_add_r : ∀ x y : A,
    num_geb y num_zero = true → num_geb (num_add x y) x = true;
  num_geb_add_mono : ∀ x y z : A,
    num_geb x y = true → num_geb (num_add x z) (num_add y z) = true;
  num_ltb_sub : ∀ x y : A,
    num_ltb x y = true → num_ltb (num_sub x y) num_zero = true
}.

(** Laws of arithmetic without rounding.  binary64 does not satisfy them:
    its addition is commutative but neither associative nor cancellative. *)
Class ExactNumber (A : Type) `{JsNumber A} : Prop := {
  num_add_assoc : ∀ x y z : A, num_add x (num_add y z) = num_add (num_add x y) z;
  num_add_comm : ∀ x y : A, num_add x y = num_add y x;
  num_add_zero_r : ∀ x : A, num_add x num_zero = x;
  num_add_cancel : ∀ x y : A, num_add x y = x → y = num_zero;
  num_sub_diag : ∀ x : A, num_sub x x = num_zero;
  num_mul_zero_l : ∀ x : A, num_mul num_zero x = num_zero
}.

(** ** Reference functions on sample trees *)

Section TreeSums.
Context {A : Type} `{JsNumber A}.
Context {K : Type} `{Countable K}.

(** The nodes of a tree in the order [resolveStats] enters them, and their
    call ids. *)
Fixpoint nodes (s : SampleNode (A:=A) (K:=K)) : list SampleNode :=
  match s with
  | Sample _ _ _ cs => s :: flat_map nodes cs
  end.

Fixpoint cids (s : SampleNode (A:=A) (K:=K)) : list K :=
  match s with
  | Sample k _ _ cs => k :: flat_map cids cs
  end.

(** The proper descendants of a node. *)
Definition descendants (s : SampleNode (A:=A) (K:=K)) : list SampleNode :=
  flat_map nodes (children s).

(** Height of a tree: the depth of recursion [resolveStats] needs. *)
Fixpoint height (s : SampleNode (A:=A) (K:=K)) : nat :=
  match s with
  | Sample _ _ _ cs => S (fold_right (λ child h, Nat.max (height child) h) 0%nat cs)
  end.

(** The sum a node's entry accumulates for one quantity [own]: the node's
    own value, then each child's sum in turn, added from the left. *)
Fixpoint treeSum (own : SampleNode (A:=A) (K:=K) → A) (s : SampleNode) : A :=
  match s with
  | Sample _ _ _ cs => fold_left (λ t child, num_add t (treeSum own child)) cs (own s)
  end.

(** A node's own total, [stats.cpu + stats.gpu]. *)
Definition ownTotal (s : SampleNode (A:=A) (K:=K)) : A := num_add (cpu s) (gpu s).

(** The entry a completed visit of [s] leaves under [cid s]. *)
Definition entryOf (s : SampleNode (A:=A) (K:=K)) : StatEntry :=
  mkStatEntry (Some (treeSum cpu s)) (Some (treeSum gpu s)) (Some (treeSum ownTotal s)) true.

(** Adding a list of numbers from the left, as a running total does. *)
Definition sumFrom (x : A) (l : list A) : A := fold_left num_add l x.

(** The loop of [resolveStats] over the children of a node with call id
    [k], as a function of its own. *)
Definition resolveChildren (k : K) (cs : list (SampleNode (A:=A) (K:=K)))
    (st : gmap K StatEntry) : gmap K StatEntry :=
  fold_left (λ st child, addChild k (cid child) (resolveStats child st)) cs st.

(** The three [+=] of the loop body on the objects themselves. *)
Definition addEntry (d cd : StatEntry (A:=A)) : StatEntry :=
  mkStatEntry (val_add (data_cpu d) (data_cpu cd))
              (val_add (data_gpu d) (data_gpu cd))
              (val_add (data_total d) (data_total cd))
              (data_initialized d).

(** No node shares its call id with one of its proper descendants. *)
Fixpoint nestedDistinct (s : SampleNode (A:=A) (K:=K)) : Prop :=
  match s with
  | Sample k _ _ cs =>
      (k ∉ flat_map cids cs) ∧
      (fix all (l : list SampleNode) : Prop :=
         match l with
         | [] => True
         | x :: r => nestedDistinct x ∧ all r
         end) cs
  end.

(** Traversing sibling subtrees in another order, at any depth. *)
Inductive reorder : SampleNode (A:=A) (K:=K) → SampleNode (A:=A) (K:=K) → Prop :=
  | reorder_refl s : reorder s s
  | reorder_trans s1 s2 s3 : reorder s1 s2 → reorder s2 s3 → reorder s1 s3
  | reorder_siblings k c g cs cs' :
      Permutation cs cs' → reorder (Sample k c g cs) (Sample k c g cs')
  | reorder_child k c g l s s' r :
      reorder s s' →
      reorder (Sample k c g (l ++ s :: r)) (Sample k c g (l ++ s' :: r)).

End TreeSums.

(** ** Sample objects in the heap *)

Section SampleHeap.
Context {A : Type} `{JsNumber A}.
Context {K : Type} `{Countable K}.

(** The samples as JavaScript has them: objects in the heap whose
    [children] arrays hold references.  Nothing in this representation
    keeps a reference from pointing back to an ancestor. *)
Record SampleObj : Type := mkSampleObj {
  obj_cid : K;
  obj_cpu : A;
  obj_gpu : A;
  obj_children : list Ref
}.

(** [resolveStats] on a sample object at address [r].  [fuel] bounds the
    depth of the call stack; [None] is a stack that ran out (or a dangling
    reference, which JavaScript cannot produce). *)
Fixpoint resolveStatsAt (fuel : nat) (heap : gmap Ref SampleObj) (r : Ref)
    (st : gmap K (StatEntry (A:=A))) : option (gmap K (StatEntry (A:=A))) :=
  match fuel with
  | O => None
  | S fuel =>
      match heap !! r with
      | None => None
      | Some stats =>
          let st := writeOwn (obj_cid stats) (obj_cpu stats) (obj_gpu stats) st in
          fold_left
            (λ acc child,
               match acc with
               | None => None
               | Some st =>
                   match resolveStatsAt fuel heap child st, heap !! child with
                   | Some st, Some childObj =>
                       Some (addChild (obj_cid stats) (obj_cid childObj) st)
                   | _, _ => None
                   end
               end)
            (obj_children stats) (Some st)
      end
  end.

(** The loop of [resolveStatsAt] over the child references. *)
Definition resolveChildrenAt (fuel : nat) (heap : gmap Ref SampleObj) (k : K)
    (refs : list Ref) (acc : option (gmap K (StatEntry (A:=A)))) : option (gmap K StatEntry) :=
  fold_left
    (λ acc child,
       match acc with
       | None => None
       | Some st =>
           match resolveStatsAt fuel heap child st, heap !! child with
           | Some st, Some childObj => Some (addChild k (obj_cid childObj) st)
           | _, _ => None
           end
       end)
    refs acc.

(** The object at [r] unfolds to the finite tree [s]. *)
Inductive represents (heap : gmap Ref SampleObj) : Ref → SampleNode (A:=A) (K:=K) → Prop :=
  | represents_node r k c g refs cs :
      heap !! r = Some (mkSampleObj k c g refs) →
      Forall2 (represents heap) refs cs →
      represents heap r (Sample k c g cs).

End SampleHeap.

(** ** Running a display cycle over several frames *)

Section CycleRuns.
Context {A : Type} `{JsNumber A}.

(** A delta is an elapsed time: not negative. *)
Definition elapsed (delta : A) : Prop := num_geb delta num_zero = true.

(** One frame of a display cycle: [updateCycle] with that frame's delta,
    then the flag cleared, as [resolveFrame] does at its end.  The result
    tells whether the cycle fired. *)
Definition advance (delta : A) (c : Cycle) : bool * Cycle :=
  let c := updateCycle delta c in
  (needsUpdate c, set_needsUpdate false c).

(** Several frames in a row, counting the firings. *)
Fixpoint runCycle (deltas : list A) (c : Cycle) : nat * Cycle :=
  match deltas with
  | [] => (0%nat, c)
  | delta :: rest =>
      let '(fired, c) := advance delta c in
      let '(n, c) := runCycle rest c in
      ((if fired then 1 else 0) + n, c)%nat
  end.

End CycleRuns.

(** ** Predicates on the store *)

Section StorePredicates.
Context {A : Type} `{JsNumber A}.
Context {K : Type} `{Countable K}.

(** The entry under [k] exists and satisfies [P]. *)
Definition entryAt (P : StatEntry (A:=A) → Prop) (st : gmap K StatEntry) (k : K) : Prop :=
  ∃ d, st !! k = Some d ∧ P d.

(** All three quantities are numbers. *)
Definition defined (d : StatEntry (A:=A)) : Prop :=
  is_Some (data_cpu d) ∧ is_Some (data_gpu d) ∧ is_Some (data_total d).

(** [total == cpu + gpu]. *)
Definition consistent (d : StatEntry (A:=A)) : Prop :=
  ∃ c g, data_cpu d = Some c ∧ data_gpu d = Some g ∧ data_total d = Some (num_add c g).

(** The total the tree-sum sentence of the specification describes for a
    node [n], read off a store: the node's own cpu + gpu plus the totals
    recorded for all of its descendants. *)
Definition totalOverDescendants (st : gmap K StatEntry) (n : SampleNode (A:=A) (K:=K)) : val A :=
  fold_left (λ t d, val_add t (field data_total (cid d) st)) (descendants n) (Some (ownTotal n)).

(** The same over the children only. *)
Definition totalOverChildren (st : gmap K StatEntry) (n : SampleNode (A:=A) (K:=K)) : val A :=
  fold_left (λ t d, val_add t (field data_total (cid d) st)) (children n) (Some (ownTotal n)).

End StorePredicates.

(** ** The results of [resolveFrame] *)

Section FrameDefs.
Context {A : Type} `{JsNumber A}.
Context {K : Type} `{Countable K}.
Variable easeFraction : A → A → A.

(** The three results of [resolveFrame]. *)
Definition resolvedFrame (host : Host) (frame : Frame) (this : Inspector (K:=K)) : Frame :=
  fst (fst (resolveFrame easeFraction host frame this)).
Definition resolvedInspector (host : Host) (frame : Frame) (this : Inspector (K:=K)) : Inspector :=
  snd (fst (resolveFrame easeFraction host frame this)).
Definition uiCalls (host : Host) (frame : Frame) (this : Inspector (K:=K)) : list UiCall :=
  snd (resolveFrame easeFraction host frame this).

(** The running totals of a frame, seen as an entry. *)
Definition frameEntry (f : Frame (A:=A) (K:=K)) : StatEntry :=
  mkStatEntry (frame_cpu f) (frame_gpu f) (frame_total f) true.

(** The loop of [resolveFrame], from the frame with its totals zeroed. *)
Definition aggregateFrame (frame : Frame) (st : gmap K StatEntry) : Frame * gmap K StatEntry :=
  fold_left addStats (frame_children frame)
    (set_frame_total (Some num_zero) (set_frame_gpu (Some num_zero) (set_frame_cpu (Some num_zero) frame)), st).

(** The states an [Inspector] object goes through: constructed, then any
    sequence of calls of the methods modelled here. *)
Inductive inspector_reachable : Inspector (A:=A) (K:=K) → Prop :=
  | reach_new : inspector_reachable newInspector
  | reach_resolveFrame host frame this :
      inspector_reachable this →
      inspector_reachable (resolvedInspector host frame this)
  | reach_resolveStats stats this :
      inspector_reachable this →
      inspector_reachable (set_statsData (resolveStats stats (statsData this)) this)
  | reach_getStatsData k this :
      inspector_reachable this →
      inspector_reachable (set_statsData (snd (getStatsData k (statsData this))) this).

(** Which method of the user interface a call goes to. *)
Variant UiKind : Type := CallSetText | CallUpdateText | CallUpdateGraph.

Definition uiKind (call : UiCall (A:=A) (K:=K)) : UiKind :=
  match call with
  | SetText _ _ => CallSetText
  | UpdateText _ _ => CallUpdateText
  | UpdateGraph _ _ => CallUpdateGraph
  end.

End FrameDefs.

(** ** Runs of the console and of the viewer *)

Section ConsoleRuns.
Context {A : Type}.
Variable splitCamelCase : string → string.
Variable splitPath : string → list string * string.
Open Scope string_scope.
Open Scope list_scope.

(** The types [resolveConsole] has a case for, and the level each is shown
    at in the console tab. *)
Definition handled (type : string) : Prop :=
  type = "log" ∨ type = "warn" ∨ type = "error".

Definition levelOf (type : string) : string :=
  if decide (type = "log") then "info" else type.

(** The key under which an event was sent, when [resolveConsoleOnce] sent
    it. *)
Definition eventKey (e : ConsoleEvent) : string :=
  match e with
  | AddMessage level m => (if decide (level = "info") then "log" else level) +:+ m
  | ConsoleLog m => "log" +:+ m
  | ConsoleWarn m => "warn" +:+ m
  | ConsoleError m => "error" +:+ m
  end.

(** Several calls of [resolveConsoleOnce] in a row, each with its type and
    message. *)
Definition onceCalls (calls : list (string * string)) (st : ConsoleState) : ConsoleState :=
  fold_left (λ st c, resolveConsoleOnce c.1 c.2 st) calls st.

(** Nothing was sent twice, and what was sent has its key recorded. *)
Definition sent_once (st : ConsoleState) : Prop :=
  NoDup (consoleOut st) ∧ ∀ e, e ∈ consoleOut st → eventKey e ∈ once st.

(** The key of a call with a handled type is recorded exactly when its
    message was sent. *)
Definition memo_exact (st : ConsoleState) : Prop :=
  ∀ type message, handled type →
    (type +:+ message ∈ once st ↔ AddMessage (levelOf type) message ∈ consoleOut st).

(** The condition under which [computeAsync] gives its tip. *)
Definition loopActive (renderer : Renderer) : bool :=
  (1 <? info_frame renderer)%Z && bool_decide (getAnimationLoop renderer ≠ None).

(** The message of [resolveViewer], line 313. *)
Definition viewerWarning : string := "Inspector: Viewer is only available with WebGPU.".

(** [resolveViewer] frame after frame, each with the nodes to preview and
    whether the viewer tab is visible then; the calls to the tab are
    collected. *)
Definition resolveViewerFrames (env : ViewerEnv (A:=A)) (renderer : Renderer)
    (frames : list (list NodeObj * bool)) (vst : ViewerState) (cst : ConsoleState)
  : ViewerState * ConsoleState * list (ViewerCall (A:=A)) :=
  fold_left
    (λ acc frame,
       let '(vst, cst, calls) := acc in
       let '(vst, cst, more) :=
         resolveViewer splitCamelCase splitPath env renderer frame.1 frame.2 vst cst in
       (vst, cst, calls ++ more))
    frames (vst, cst, []).

End ConsoleRuns.

(** ** Example inputs *)

Section Examples.
Open Scope string_scope.

(** A coefficient for [ease] in the examples: the factor itself. *)
Definition easeByFactor {A : Type} (deltaTime factor : A) : A := factor.

(** *** binary64 *)

(** A chain of three nodes, one unit of cpu time each. *)
Definition chainABC : SampleNode (A:=float) (K:=string) :=
  Sample "A" 1%float 0%float [Sample "B" 1%float 0%float [Sample "C" 1%float 0%float []]].

(** A node and its child with the same call id. *)
Definition nestedAA : SampleNode (A:=float) (K:=string) :=
  Sample "A" 5%float 0%float [Sample "A" 1%float 0%float []].

(** Two siblings, in both orders. *)
Definition siblingsXY : SampleNode (A:=float) (K:=string) :=
  Sample "R" 0.1%float 0%float
    [Sample "X" 0.1%float 0%float []; Sample "Y" 0.4%float 0%float []].
Definition siblingsYX : SampleNode (A:=float) (K:=string) :=
  Sample "R" 0.1%float 0%float
    [Sample "Y" 0.4%float 0%float []; Sample "X" 0.1%float 0%float []].

(** Two siblings with the same call id. *)
Definition sharedAA : SampleNode (A:=float) (K:=string) :=
  Sample "R" 1%float 0%float
    [Sample "A" 1%float 2%float []; Sample "A" 10%float 20%float []].

(** Frames 1 and 2 of the end-to-end scenarios: frame 1 starts at 0 with the
    given samples, frame 2 starts at 20. *)
Definition frameOne (samples : list (SampleNode (A:=float) (K:=string))) : Frame :=
  mkFrame 1 0%float samples None None None None None.
Definition frameTwo : Frame (A:=float) (K:=string) :=
  mkFrame 2 20%float [] None None None None None.
Definition hostTwo (delta : float) : Host (A:=float) (K:=string) :=
  mkHost (λ id, if decide (id = 2%Z) then Some frameTwo else None) delta.

(** A frame whose only sample has one child, with tenths of milliseconds. *)
Definition tenthsFrame : Frame (A:=float) (K:=string) :=
  frameOne [Sample "r" 0.1%float 0.1%float [Sample "a" 0.2%float 0.3%float []]].

(** *** Exact rationals *)

Definition treeQc : SampleNode (A:=Qc) (K:=string) :=
  Sample "R" (Q2Qc 1) (Q2Qc 2)
    [Sample "X" (Q2Qc 0.5) (Q2Qc 0) [Sample "Z" (Q2Qc 3) (Q2Qc 1) []];
     Sample "Y" (Q2Qc 0.25) (Q2Qc 0.25) []].

Definition frameQc : Frame (A:=Qc) (K:=string) :=
  mkFrame 1 (Q2Qc 0) [treeQc] None None None None None.
Definition nextQc : Frame (A:=Qc) (K:=string) :=
  mkFrame 2 (Q2Qc 20) [] None None None None None.
Definition hostQc : Host (A:=Qc) (K:=string) :=
  mkHost (λ id, if decide (id = 2%Z) then Some nextQc else None) (Q2Qc 0.1).

(** *** The viewer *)

Definition envEx : ViewerEnv (A:=float) := mkViewerEnv 2%float "srgb".
Definition splitCamelCaseEx (s : string) : string := s.
Definition splitPathEx (s : string) : list string * string := ([], s).
Definition nodeEx : NodeObj := mkNodeObj 7%positive 42%Z (Some "baseColor").
Definition viewerInit : ViewerState (A:=float) := mkViewerState ∅ 100%positive.

(** *** Sample objects *)

(** The heap holding [chainABC]: object 1 has child 2, which has child 3. *)
Definition heapABC : gmap Ref (SampleObj (A:=float) (K:=string)) :=
  <[1%positive := mkSampleObj "A" 1%float 0%float [2%positive]]>
  (<[2%positive := mkSampleObj "B" 1%float 0%float [3%positive]]>
  (<[3%positive := mkSampleObj "C" 1%float 0%float []]> ∅)).

(** A sample object that lists itself among its children. *)
Definition heapLoop : gmap Ref (SampleObj (A:=float) (K:=string)) :=
  <[1%positive := mkSampleObj "A" 1%float 0%float [1%positive]]> ∅.

(** *** The console and the viewer tab *)

(** A renderer on WebGPU at frame 5 with an animation loop set, and one on
    WebGL2 without. *)
Definition rendererGPU : Renderer := mkRenderer 5 (Some 1%positive) true false.
Definition rendererGL : Renderer := mkRenderer 5 None false true.

(** A second node, without a name. *)
Definition nodeEx2 : NodeObj := mkNodeObj 8%positive 43%Z None.

(** Calls of [resolveConsoleOnce], one of them repeated. *)
Definition callsEx : list (string * string) :=
  [("log", "ready"); ("warn", "slow"); ("log", "ready")].

(** A frame with two top-level samples that share a call id. *)
Definition frameShared : Frame (A:=float) (K:=string) :=
  frameOne [Sample "A" 1%float 2%float []; Sample "A" 10%float 20%float []].

(** *** Inputs at the edge of binary64 *)

(** A frame whose two samples overflow to infinities of opposite sign. *)
Definition frameOverflow : Frame (A:=float) (K:=string) :=
  frameOne [Sample "a" 1e308%float 1e308%float [];
            Sample "b" (-1e308)%float (-1e308)%float []].

(** A frame of 25 ms of samples within 20 ms. *)
Definition frameBusy : Frame (A:=float) (K:=string) :=
  frameOne [Sample "a" 15%float 10%float []].



(** Elapsed times whose sum without rounding is .25 and whose running sum
    in binary64 stays below it; and two whose sum without rounding is
    below .25 and which reach it in binary64. *)
Definition deltasQuarter : list float :=
  [0.125%float; 0x1p-57%float; 0x1p-57%float; 0x1p-57%float; 0x1p-57%float;
   (0.125 - 0x1p-55)%float].
Definition deltasBelowQuarter : list float :=
  [(0.25 - 0x1p-55)%float; 0x1p-56%float].

(** A store with an entry under [a]. *)
Definition entryA : StatEntry (A:=float) :=
  mkStatEntry (Some 1%float) (Some 2%float) (Some 3%float) true.
Definition storeA : gmap string (StatEntry (A:=float)) := <["a" := entryA]> ∅.

End Examples.

(** ** The store after a visit *)

Section StoreLemmas.
Context {A : Type} `{JsNumber A}.
Context {K : Type} `{Countable K}.
Implicit Types (st : gmap K (StatEntry (A:=A))) (s : SampleNode (A:=A) (K:=K)).

Lemma SampleNode_forall_ind (P : SampleNode (A:=A) (K:=K) → Prop) :
  (∀ k c g cs, Forall P cs → P (Sample k c g cs)) → ∀ s, P s.
Proof.
  intros Hnode. fix IH 1. intros [k c g cs]. apply Hnode.
  induction cs as [|x r IHr]; constructor; [apply IH | exact IHr].
Qed.

Lemma getStatsData_present k st d :
  st !! k = Some d → getStatsData k st = (d, st).
Proof. intros Hk. unfold getStatsData. by rewrite Hk. Qed.

Lemma getStatsData_lookup k st :
  snd (getStatsData k st) !! k = Some (fst (getStatsData k st)).
Proof.
  unfold getStatsData. destruct (st !! k) eqn:Hk; simpl; [done|].
  apply lookup_insert_eq.
Qed.

Lemma getStatsData_lookup_ne k k' st :
  k' ≠ k → snd (getStatsData k st) !! k' = st !! k'.
Proof.
  intros Hne. unfold getStatsData. destruct (st !! k); simpl; [done|].
  by apply lookup_insert_ne.
Qed.

(** Lines 225 to 240 leave the node's own sample under its call id,
    whatever the object held before. *)
Lemma writeOwn_insert k c g st :
  writeOwn k c g st =
  <[k := mkStatEntry (Some c) (Some g) (Some (num_add c g)) true]> st.
Proof.
  apply map_eq. intros i. unfold writeOwn, getStatsData.
  destruct (decide (i = k)) as [->|Hne].
  - rewrite lookup_insert_eq.
    destruct (st !! k) as [[dc dg dt [|]]|] eqn:Hk; simpl;
      rewrite !lookup_alter_eq, ?lookup_insert_eq, ?Hk; done.
  - rewrite lookup_insert_ne by done.
    destruct (st !! k) as [[dc dg dt [|]]|] eqn:Hk; simpl;
      rewrite !lookup_alter_ne, ?lookup_insert_ne by done; done.
Qed.

Lemma addChild_insert k ck st d cd :
  st !! k = Some d → st !! ck = Some cd →
  addChild k ck st = <[k := addEntry d cd]> st.
Proof.
  intros Hk Hck. apply map_eq. intros i. unfold addChild.
  rewrite (getStatsData_present _ _ _ Hck). simpl.
  destruct (decide (i = k)) as [->|Hne].
  - rewrite lookup_insert_eq, !lookup_alter_eq, Hk. simpl.
    unfold field. destruct (decide (ck = k)) as [->|Hne].
    + rewrite !lookup_alter_eq, Hk. simpl. rewrite Hk in Hck. by inversion Hck.
    + rewrite !lookup_alter_ne, Hck by done. done.
  - rewrite lookup_insert_ne, !lookup_alter_ne by done. done.
Qed.

Lemma addChild_lookup_ne k ck st k' :
  k' ≠ k → k' ≠ ck → addChild k ck st !! k' = st !! k'.
Proof.
  intros Hk Hck. unfold addChild.
  rewrite !lookup_alter_ne by done. by apply getStatsData_lookup_ne.
Qed.

Lemma resolveStats_unfold k c g cs st :
  resolveStats (Sample k c g cs) st = resolveChildren k cs (writeOwn k c g st).
Proof. reflexivity. Qed.

Lemma resolveChildren_cons k child cs st :
  resolveChildren k (child :: cs) st =
  resolveChildren k cs (addChild k (cid child) (resolveStats child st)).
Proof. reflexivity. Qed.

Lemma resolveChildren_app k cs1 cs2 st :
  resolveChildren k (cs1 ++ cs2) st = resolveChildren k cs2 (resolveChildren k cs1 st).
Proof. unfold resolveChildren. apply fold_left_app. Qed.

Lemma elem_of_cids_cons k c g (cs : list (SampleNode (A:=A) (K:=K))) k' :
  k' ∈ cids (Sample k c g cs) ↔ k' = k ∨ ∃ child, child ∈ cs ∧ k' ∈ cids child.
Proof.
  simpl. rewrite elem_of_cons, list_elem_of_In, in_flat_map.
  setoid_rewrite list_elem_of_In. done.
Qed.

Lemma cid_elem_of_cids s : cid s ∈ cids s.
Proof. destruct s. simpl. apply elem_of_cons. by left. Qed.

(** A visit keeps every key that is bound, and binds the node's own. *)
Lemma resolveStats_is_Some s :
  ∀ st, is_Some (resolveStats s st !! cid s) ∧
        ∀ k', is_Some (st !! k') → is_Some (resolveStats s st !! k').
Proof.
  induction s as [k c g cs IH] using SampleNode_forall_ind. intros st.
  rewrite resolveStats_unfold, writeOwn_insert. simpl.
  set (st0 := <[k := _]> st).
  assert (Hfold : ∀ st1, is_Some (st1 !! k) →
            ∀ k', is_Some (st1 !! k') → is_Some (resolveChildren k cs st1 !! k')).
  { clear st st0. induction IH as [|child cs IHchild _ IHcs]; intros st1 Hk k' Hk'.
    - done.
    - rewrite resolveChildren_cons.
      destruct (IHchild st1) as [Hc Hkeep].
      destruct (Hkeep k Hk) as [d Hd]. destruct Hc as [cd Hcd].
      rewrite (addChild_insert _ _ _ _ _ Hd Hcd).
      apply IHcs.
      + rewrite lookup_insert_eq. eauto.
      + rewrite lookup_insert. case_decide; [eauto|]. by apply Hkeep. }
  split.
  - apply Hfold; unfold st0; rewrite lookup_insert_eq; eauto.
  - intros k' Hk'. apply Hfold.
    + unfold st0; rewrite lookup_insert_eq; eauto.
    + unfold st0. rewrite lookup_insert. case_decide; eauto.
Qed.

(** A visit writes under the call ids of the tree only. *)
Lemma resolveStats_frame s :
  ∀ st k', k' ∉ cids s → resolveStats s st !! k' = st !! k'.
Proof.
  induction s as [k c g cs IH] using SampleNode_forall_ind. intros st k' Hk'.
  rewrite elem_of_cids_cons in Hk'.
  rewrite resolveStats_unfold, writeOwn_insert.
  assert (Hfold : ∀ st1, resolveChildren k cs st1 !! k' = st1 !! k').
  { assert (Hcs : ∀ child, child ∈ cs → k' ∉ cids child) by naive_solver.
    assert (Hk : k' ≠ k) by naive_solver.
    clear Hk'. induction IH as [|child cs IHchild _ IHcs]; intros st1.
    - done.
    - rewrite resolveChildren_cons, IHcs.
      + rewrite addChild_lookup_ne.
        * apply IHchild. apply Hcs. by left.
        * done.
        * intros ->. apply (Hcs child); [by left | apply cid_elem_of_cids].
      + intros ch Hch. apply Hcs. by right. }
  rewrite Hfold. apply lookup_insert_ne. naive_solver.
Qed.

Lemma resolveChildren_frame k (cs : list (SampleNode (A:=A) (K:=K))) st k' :
  k' ≠ k → k' ∉ flat_map cids cs → resolveChildren k cs st !! k' = st !! k'.
Proof.
  intros Hk. revert st. induction cs as [|child cs IHcs]; intros st Hcs; [done|].
  simpl in Hcs. rewrite elem_of_app in Hcs.
  rewrite resolveChildren_cons, IHcs by tauto.
  rewrite addChild_lookup_ne; [|done|].
  - apply resolveStats_frame. tauto.
  - intros ->. apply Hcs. left. apply cid_elem_of_cids.
Qed.

Lemma resolveChildren_is_Some k (cs : list (SampleNode (A:=A) (K:=K))) st k' :
  is_Some (st !! k) → is_Some (st !! k') → is_Some (resolveChildren k cs st !! k').
Proof.
  revert st. induction cs as [|child cs IHcs]; intros st Hk Hk'; [done|].
  rewrite resolveChildren_cons.
  destruct (resolveStats_is_Some child st) as [[cd Hcd] Hkeep].
  destruct (Hkeep k Hk) as [d Hd].
  rewrite (addChild_insert _ _ _ _ _ Hd Hcd). apply IHcs.
  - rewrite lookup_insert_eq. eauto.
  - rewrite lookup_insert. case_decide; [eauto|]. by apply Hkeep.
Qed.

Lemma nestedDistinct_unfold k c g (cs : list (SampleNode (A:=A) (K:=K))) :
  nestedDistinct (Sample k c g cs) ↔ (k ∉ flat_map cids cs) ∧ Forall nestedDistinct cs.
Proof.
  simpl. apply and_iff_compat_l. induction cs as [|x r IH]; simpl.
  - split; [constructor | done].
  - rewrite Forall_cons. by rewrite IH.
Qed.

(** What the running totals of a node hold after its children [cs]. *)
Lemma fold_addEntry_entryOf (cs : list (SampleNode (A:=A) (K:=K))) a b t :
  fold_left (λ d child, addEntry d (entryOf child)) cs
    (mkStatEntry (Some a) (Some b) (Some t) true) =
  mkStatEntry (Some (fold_left (λ x child, num_add x (treeSum cpu child)) cs a))
              (Some (fold_left (λ x child, num_add x (treeSum gpu child)) cs b))
              (Some (fold_left (λ x child, num_add x (treeSum ownTotal child)) cs t))
              true.
Proof. revert a b t. induction cs as [|x r IH]; intros a b t; simpl; [done|]. apply IH. Qed.

Lemma entryOf_unfold k c g (cs : list (SampleNode (A:=A) (K:=K))) :
  entryOf (Sample k c g cs) =
  fold_left (λ d child, addEntry d (entryOf child)) cs
    (mkStatEntry (Some c) (Some g) (Some (num_add c g)) true).
Proof. by rewrite fold_addEntry_entryOf. Qed.

Lemma resolveChildren_own k (cs : list (SampleNode (A:=A) (K:=K))) :
  Forall (λ child, ∀ st, resolveStats child st !! cid child = Some (entryOf child)) cs →
  k ∉ flat_map cids cs →
  ∀ st d, st !! k = Some d →
    resolveChildren k cs st !! k =
    Some (fold_left (λ d child, addEntry d (entryOf child)) cs d).
Proof.
  induction 1 as [|child cs Hchild _ IHcs]; intros Hk st d Hd; [done|].
  simpl in Hk. rewrite elem_of_app in Hk.
  rewrite resolveChildren_cons. simpl.
  assert (Hd' : resolveStats child st !! k = Some d).
  { rewrite resolveStats_frame; [done|]. tauto. }
  rewrite (addChild_insert _ _ _ _ _ Hd' (Hchild st)).
  apply IHcs; [tauto|]. apply lookup_insert_eq.
Qed.

(** A completed visit leaves the node's sums under its call id, whatever
    the store held. *)
Lemma resolveStats_own s :
  nestedDistinct s → ∀ st, resolveStats s st !! cid s = Some (entryOf s).
Proof.
  induction s as [k c g cs IH] using SampleNode_forall_ind.
  rewrite nestedDistinct_unfold. intros [Hk Hcs] st.
  rewrite resolveStats_unfold, writeOwn_insert, entryOf_unfold. simpl.
  apply resolveChildren_own; [|done|apply lookup_insert_eq].
  rewrite Forall_forall in IH, Hcs. apply Forall_forall. intros child Hin.
  apply IH; [done|]. by apply Hcs.
Qed.

Lemma elem_of_flat_map {X Y} (f : X → list Y) (l : list X) (y : Y) :
  y ∈ flat_map f l ↔ ∃ x, x ∈ l ∧ y ∈ f x.
Proof.
  rewrite list_elem_of_In, in_flat_map. setoid_rewrite list_elem_of_In. done.
Qed.

Lemma elem_of_nodes_cons k c g (cs : list (SampleNode (A:=A) (K:=K))) n :
  n ∈ nodes (Sample k c g cs) ↔ n = Sample k c g cs ∨ ∃ child, child ∈ cs ∧ n ∈ nodes child.
Proof. simpl. by rewrite elem_of_cons, elem_of_flat_map. Qed.

Lemma self_elem_of_nodes s : s ∈ nodes s.
Proof. destruct s. apply elem_of_nodes_cons. by left. Qed.

Lemma nodes_cids s n : n ∈ nodes s → cid n ∈ cids s.
Proof.
  induction s as [k c g cs IH] using SampleNode_forall_ind.
  rewrite elem_of_nodes_cons, elem_of_cids_cons. intros [->|(child & Hin & Hn)].
  - by left.
  - right. exists child. split; [done|]. rewrite Forall_forall in IH. by apply IH.
Qed.

Lemma nodes_trans s n m : n ∈ nodes s → m ∈ nodes n → m ∈ nodes s.
Proof.
  induction s as [k c g cs IH] using SampleNode_forall_ind.
  rewrite !elem_of_nodes_cons. intros [->|(child & Hin & Hn)] Hm.
  - by apply elem_of_nodes_cons.
  - right. exists child. split; [done|]. rewrite Forall_forall in IH. by apply IH.
Qed.

Lemma children_nodes s n child : n ∈ nodes s → child ∈ children n → child ∈ nodes s.
Proof.
  intros Hn Hc. apply (nodes_trans s n); [done|]. destruct n as [k c g cs].
  apply elem_of_nodes_cons. right. exists child. split; [done|apply self_elem_of_nodes].
Qed.

Lemma NoDup_cids_cons k c g (cs : list (SampleNode (A:=A) (K:=K))) :
  NoDup (cids (Sample k c g cs)) ↔ (k ∉ flat_map cids cs) ∧ NoDup (flat_map cids cs).
Proof. simpl. apply NoDup_cons. Qed.

Lemma NoDup_flat_map_cons (child : SampleNode (A:=A) (K:=K)) cs :
  NoDup (flat_map cids (child :: cs)) ↔
  NoDup (cids child) ∧ (∀ k, k ∈ cids child → k ∉ flat_map cids cs) ∧ NoDup (flat_map cids cs).
Proof. simpl. apply NoDup_app. Qed.

Lemma NoDup_flat_map_child (cs : list (SampleNode (A:=A) (K:=K))) child :
  NoDup (flat_map cids cs) → child ∈ cs → NoDup (cids child).
Proof.
  induction cs as [|x r IH]; intros Hnd Hin.
  - by apply elem_of_nil in Hin.
  - apply NoDup_flat_map_cons in Hnd as (Hx & _ & Hr).
    apply elem_of_cons in Hin as [->|Hin]; auto.
Qed.

Lemma NoDup_nestedDistinct s : NoDup (cids s) → nestedDistinct s.
Proof.
  induction s as [k c g cs IH] using SampleNode_forall_ind.
  rewrite NoDup_cids_cons, nestedDistinct_unfold. intros [Hk Hnd]. split; [done|].
  rewrite Forall_forall in IH. apply Forall_forall. intros child Hin.
  apply IH; [done|]. by apply (NoDup_flat_map_child cs).
Qed.

Lemma resolveChildren_entries k (cs : list (SampleNode (A:=A) (K:=K))) :
  Forall (λ child, NoDup (cids child) → ∀ st n, n ∈ nodes child →
            resolveStats child st !! cid n = Some (entryOf n)) cs →
  NoDup (flat_map cids cs) → k ∉ flat_map cids cs →
  ∀ st n, is_Some (st !! k) → n ∈ flat_map nodes cs →
    resolveChildren k cs st !! cid n = Some (entryOf n).
Proof.
  induction 1 as [|child cs Hchild _ IHcs]; intros Hnd Hk st n Hst Hn.
  - by apply elem_of_nil in Hn.
  - apply NoDup_flat_map_cons in Hnd as (Hc & Hdisj & Hr).
    simpl in Hk, Hn. rewrite elem_of_app in Hk. rewrite elem_of_app in Hn.
    rewrite resolveChildren_cons.
    destruct (resolveStats_is_Some child st) as [[cd Hcd] Hkeep].
    destruct (Hkeep k Hst) as [d Hd].
    rewrite (addChild_insert _ _ _ _ _ Hd Hcd).
    destruct Hn as [Hn|Hn].
    + pose proof (nodes_cids _ _ Hn) as Hin.
      assert (cid n ≠ k) by (intros Heq; apply Hk; left; by rewrite <- Heq).
      rewrite resolveChildren_frame by auto.
      rewrite lookup_insert_ne by done. by apply Hchild.
    + apply IHcs; [done|tauto| |done]. rewrite lookup_insert_eq. eauto.
Qed.

(** With pairwise distinct call ids, every node of the tree finds its own
    sums under its call id once the visit of the root returns. *)
Lemma resolveStats_entries s :
  NoDup (cids s) → ∀ st n, n ∈ nodes s → resolveStats s st !! cid n = Some (entryOf n).
Proof.
  induction s as [k c g cs IH] using SampleNode_forall_ind. intros Hnd st n Hn.
  simpl in Hn. apply elem_of_cons in Hn as [->|Hn].
  - apply resolveStats_own. by apply NoDup_nestedDistinct.
  - apply NoDup_cids_cons in Hnd as [Hk Hnd].
    rewrite resolveStats_unfold, writeOwn_insert.
    apply resolveChildren_entries; [done..| |done]. rewrite lookup_insert_eq. eauto.
Qed.

(** The last child visited keeps its entry, and the parent holds the sums
    over all children. *)
Lemma resolveStats_last_child k c g (cs : list (SampleNode (A:=A) (K:=K))) last st :
  nestedDistinct (Sample k c g (cs ++ [last])) →
  resolveStats (Sample k c g (cs ++ [last])) st !! cid last = Some (entryOf last).
Proof.
  intros Hnd. pose proof Hnd as Hnd'.
  apply nestedDistinct_unfold in Hnd' as [Hk Hall].
  rewrite Forall_app, Forall_singleton in Hall. destruct Hall as [_ Hlast].
  assert (cid last ≠ k) as Hne.
  { intros <-. apply Hk. apply elem_of_flat_map. exists last. split.
    - apply elem_of_app. right. by apply list_elem_of_singleton.
    - apply cid_elem_of_cids. }
  rewrite resolveStats_unfold, resolveChildren_app.
  set (st1 := resolveChildren k cs _). unfold resolveChildren. simpl.
  assert (is_Some (st1 !! k)) as Hk1.
  { apply resolveChildren_is_Some; rewrite writeOwn_insert, lookup_insert_eq; eauto. }
  destruct (resolveStats_is_Some last st1) as [[cd Hcd] Hkeep].
  destruct (Hkeep k Hk1) as [d Hd].
  rewrite (addChild_insert _ _ _ _ _ Hd Hcd), lookup_insert_ne by done.
  by apply resolveStats_own.
Qed.
End StoreLemmas.

(** ** Sibling order *)

Section Reorder.
Context {A : Type} `{JsNumber A}.
Context {K : Type} `{Countable K}.
Implicit Types (st : gmap K (StatEntry (A:=A))) (s : SampleNode (A:=A) (K:=K)).

Lemma reorder_cid s s' : reorder s s' → cid s = cid s'.
Proof. induction 1; simpl; congruence. Qed.

Lemma reorder_cids s s' : reorder s s' → Permutation (cids s) (cids s').
Proof.
  induction 1 as [s|s1 s2 s3 _ IH1 _ IH2|k c g cs cs' Hp|k c g l s s' r _ IH]; simpl.
  - done.
  - by etrans.
  - constructor. by apply Permutation_flat_map.
  - constructor. rewrite !flat_map_app. simpl. by rewrite IH.
Qed.

Lemma reorder_nodes s s' :
  reorder s s' → ∀ n, n ∈ nodes s → ∃ n', n' ∈ nodes s' ∧ reorder n n'.
Proof.
  induction 1 as [s|s1 s2 s3 _ IH1 _ IH2|k c g cs cs' Hp|k c g l s s' r Hr IH]; intros n Hn.
  - exists n. split; [done|constructor].
  - destruct (IH1 n Hn) as (n2 & Hn2 & Hr2). destruct (IH2 n2 Hn2) as (n3 & Hn3 & Hr3).
    exists n3. split; [done|]. by eapply reorder_trans.
  - apply elem_of_nodes_cons in Hn as [->|(child & Hin & Hn)].
    + exists (Sample k c g cs'). split; [apply self_elem_of_nodes|by constructor].
    + exists n. split; [|constructor]. apply elem_of_nodes_cons. right.
      exists child. split; [|done]. by rewrite <- Hp.
  - apply elem_of_nodes_cons in Hn as [->|(child & Hin & Hn)].
    + exists (Sample k c g (l ++ s' :: r)). split; [apply self_elem_of_nodes|by constructor].
    + rewrite elem_of_app, elem_of_cons in Hin. destruct Hin as [Hin|[->|Hin]].
      * exists n. split; [|constructor]. apply elem_of_nodes_cons. right.
        exists child. split; [|done]. rewrite elem_of_app. by left.
      * destruct (IH n Hn) as (n' & Hn' & Hr'). exists n'. split; [|done].
        apply elem_of_nodes_cons. right. exists s'. split; [|done].
        rewrite elem_of_app, elem_of_cons. right. by left.
      * exists n. split; [|constructor]. apply elem_of_nodes_cons. right.
        exists child. split; [|done]. rewrite elem_of_app, elem_of_cons. right. by right.
Qed.

Context `{!ExactNumber A}.

Lemma sumFrom_add (x y : A) l : num_add x (sumFrom y l) = sumFrom (num_add x y) l.
Proof.
  unfold sumFrom. revert y. induction l as [|z l IH]; intros y; simpl; [done|].
  by rewrite IH, num_add_assoc.
Qed.

Lemma sumFrom_app (x : A) l1 l2 : sumFrom x (l1 ++ l2) = sumFrom (sumFrom x l1) l2.
Proof. unfold sumFrom. apply fold_left_app. Qed.

(** Without rounding, a node's sum is its own value plus the own values of
    all its descendants. *)
Lemma treeSum_descendants (own : SampleNode (A:=A) (K:=K) → A) s :
  treeSum own s = sumFrom (own s) (map own (descendants s)).
Proof.
  induction s as [k c g cs IH] using SampleNode_forall_ind.
  unfold descendants. simpl. generalize (own (Sample k c g cs)). 
  induction IH as [|child cs Hchild _ IHcs]; intros x; simpl; [done|].
  rewrite IHcs, Hchild, map_app, sumFrom_app. f_equal.
  destruct child as [k' c' g' cs']. unfold descendants. simpl.
  by rewrite sumFrom_add.
Qed.

Lemma fold_children_perm (f : SampleNode (A:=A) (K:=K) → A) cs cs' :
  Permutation cs cs' →
  ∀ x, fold_left (λ t child, num_add t (f child)) cs x =
       fold_left (λ t child, num_add t (f child)) cs' x.
Proof.
  induction 1 as [|a l l' _ IH|a b l|l1 l2 l3 _ IH1 _ IH2]; intros x; simpl.
  - done.
  - apply IH.
  - f_equal. rewrite <- !num_add_assoc. f_equal. apply num_add_comm.
  - by rewrite IH1.
Qed.

Lemma treeSum_reorder (own : SampleNode (A:=A) (K:=K) → A) :
  (∀ k c g cs cs', own (Sample k c g cs) = own (Sample k c g cs')) →
  ∀ s s', reorder s s' → treeSum own s = treeSum own s'.
Proof.
  intros Hown s s'.
  induction 1 as [s|s1 s2 s3 _ IH1 _ IH2|k c g cs cs' Hp|k c g l s s' r _ IH]; simpl.
  - done.
  - congruence.
  - rewrite (Hown k c g cs cs'). by apply fold_children_perm.
  - rewrite (Hown k c g _ (l ++ s' :: r)), !fold_left_app. simpl. by rewrite IH.
Qed.

Lemma entryOf_reorder s s' : reorder s s' → entryOf s = entryOf s'.
Proof.
  intros Hr. unfold entryOf.
  rewrite (treeSum_reorder cpu (λ _ _ _ _ _, eq_refl) s s' Hr).
  rewrite (treeSum_reorder gpu (λ _ _ _ _ _, eq_refl) s s' Hr).
  by rewrite (treeSum_reorder ownTotal (λ _ _ _ _ _, eq_refl) s s' Hr).
Qed.

(** Without rounding, the store after a visit does not depend on the order
    of sibling subtrees. *)
Lemma resolveStats_reorder s s' st :
  reorder s s' → NoDup (cids s) → resolveStats s' st = resolveStats s st.
Proof.
  intros Hr Hnd. apply map_eq. intros i.
  pose proof (reorder_cids _ _ Hr) as Hp.
  assert (NoDup (cids s')) as Hnd' by (by rewrite <- Hp).
  destruct (decide (i ∈ cids s)) as [Hin|Hout].
  - assert (∃ n, n ∈ nodes s ∧ cid n = i) as (n & Hn & <-).
    { clear -Hin. revert Hin. induction s as [k c g cs IH] using SampleNode_forall_ind.
      rewrite elem_of_cids_cons. intros [->|(child & Hc & Hi)].
      - eexists. split; [apply self_elem_of_nodes|done].
      - rewrite Forall_forall in IH. destruct (IH child Hc Hi) as (n & Hn & Heq).
        exists n. split; [|done]. apply elem_of_nodes_cons. right. eauto. }
    destruct (reorder_nodes _ _ Hr n Hn) as (n' & Hn' & Hr').
    rewrite (resolveStats_entries s Hnd st n Hn), (reorder_cid _ _ Hr').
    rewrite (resolveStats_entries s' Hnd' st n' Hn'). f_equal. symmetry.
    by apply entryOf_reorder.
  - rewrite !resolveStats_frame; [done|done|]. by rewrite <- Hp.
Qed.

End Reorder.

(** ** Exact rationals satisfy the laws *)

Lemma Qc_geb_le (x y : Qc) : num_geb x y = true ↔ (y <= x)%Qc.
Proof. simpl. apply Qle_bool_iff. Qed.

Lemma Qc_ltb_lt (x y : Qc) : num_ltb x y = true ↔ (x < y)%Qc.
Proof.
  simpl. rewrite negb_true_iff. split.
  - intros Hb. apply Qnot_le_lt. intros Hle. apply Qle_bool_iff in Hle. congruence.
  - intros Hlt. destruct (Qle_bool y x) eqn:Hb; [|done].
    apply Qle_bool_iff in Hb. exfalso. by apply (Qlt_not_le x y).
Qed.

#[export] Instance Qc_OrderedNumber : OrderedNumber Qc.
Proof.
  split.
  - done.
  - intros x. apply Qc_geb_le. apply Qcle_refl.
  - intros x y z. rewrite !Qc_geb_le. intros Hxy Hyz. by apply (Qcle_trans z y x).
  - intros x y. rewrite !Qc_geb_le. intros Hxy Hyx. by apply Qcle_antisym.
  - intros x y. rewrite !Qc_geb_le. intros Hy.
    replace x with (x + Q2Qc 0)%Qc at 1 by ring.
    apply Qcplus_le_compat; [apply Qcle_refl|done].
  - intros x y z. rewrite !Qc_geb_le. intros Hxy.
    apply Qcplus_le_compat; [done|apply Qcle_refl].
  - intros x y. rewrite !Qc_ltb_lt. intros Hlt.
    apply Qclt_minus_iff in Hlt. 
    apply Qclt_minus_iff. simpl. replace (Q2Qc 0 + - (x - y))%Qc with (y + - x)%Qc by ring. done.
Qed.

#[export] Instance Qc_ExactNumber : ExactNumber Qc.
Proof.
  split; simpl.
  - intros. ring.
  - intros. ring.
  - intros. ring.
  - intros x y Hxy. replace y with ((x + y) - x)%Qc by ring. rewrite Hxy. ring.
  - intros. ring.
  - intros. ring.
Qed.

(** ** Frames *)

Section FrameLemmas.
Context {A : Type} `{JsNumber A}.
Context {K : Type} `{Countable K}.
Implicit Types (st : gmap K (StatEntry (A:=A))) (s : SampleNode (A:=A) (K:=K)).
Implicit Types (f frame : Frame (A:=A) (K:=K)).

(** An invariant of entries that own samples satisfy and the loop body
    preserves holds wherever a visit wrote, and survives wherever it held. *)
Lemma resolveStats_invariant (P : StatEntry (A:=A) → Prop) :
  (∀ c g, P (mkStatEntry (Some c) (Some g) (Some (num_add c g)) true)) →
  (∀ d cd, P d → P cd → P (addEntry d cd)) →
  ∀ s st k', entryAt P st k' ∨ k' ∈ cids s → entryAt P (resolveStats s st) k'.
Proof.
  intros Hown Hadd s.
  induction s as [k c g cs IH] using SampleNode_forall_ind. intros st k' Hk'.
  rewrite resolveStats_unfold, writeOwn_insert.
  set (st0 := <[k := _]> st).
  assert (Hfold : ∀ st1, entryAt P st1 k →
            ∀ k', entryAt P st1 k' ∨ (∃ child, child ∈ cs ∧ k' ∈ cids child) →
                  entryAt P (resolveChildren k cs st1) k').
  { clear st st0 k' Hk'.
    induction IH as [|child cs IHchild _ IHcs]; intros st1 Hk k' Hk'.
    - destruct Hk' as [Hk'|(child & Hin & _)]; [done|]. by apply elem_of_nil in Hin.
    - rewrite resolveChildren_cons.
      destruct (IHchild st1 k (or_introl Hk)) as (d & Hd & HPd).
      destruct (IHchild st1 (cid child) (or_intror (cid_elem_of_cids child))) as (cd & Hcd & HPcd).
      rewrite (addChild_insert _ _ _ _ _ Hd Hcd).
      assert (Hkeep : ∀ j, entryAt P (resolveStats child st1) j →
                entryAt P (<[k := addEntry d cd]> (resolveStats child st1)) j).
      { intros j (dj & Hj & HPj). unfold entryAt. rewrite lookup_insert.
        case_decide; eauto. }
      apply IHcs.
      + unfold entryAt. rewrite lookup_insert_eq. eauto.
      + destruct Hk' as [Hk'|(ch & Hin & Hch)].
        * left. apply Hkeep. apply IHchild. by left.
        * apply elem_of_cons in Hin as [->|Hin].
          -- left. apply Hkeep. apply IHchild. by right.
          -- right. eauto. }
  assert (entryAt P st0 k) as Hk0.
  { unfold entryAt, st0. rewrite lookup_insert_eq. eauto. }
  apply Hfold; [done|].
  destruct Hk' as [(d & Hd & HPd)|Hk'].
  - left. unfold entryAt, st0. rewrite lookup_insert. case_decide; eauto.
  - apply elem_of_cids_cons in Hk' as [->|Hk']; [by left|by right].
Qed.

Lemma defined_own (c g : A) : defined (mkStatEntry (Some c) (Some g) (Some (num_add c g)) true).
Proof. repeat split; simpl; eauto. Qed.

Lemma defined_addEntry (d cd : StatEntry (A:=A)) : defined d → defined cd → defined (addEntry d cd).
Proof.
  intros ([c Hc] & [g Hg] & [t Ht]) ([c' Hc'] & [g' Hg'] & [t' Ht']).
  unfold defined, addEntry. simpl. rewrite Hc, Hg, Ht, Hc', Hg', Ht'. simpl. eauto.
Qed.

Lemma addStats_eq f st s :
  addStats (f, st) s =
  (set_frame_total (val_add (frame_total f) (field data_total (cid s) (resolveStats s st)))
     (set_frame_gpu (val_add (frame_gpu f) (field data_gpu (cid s) (resolveStats s st)))
        (set_frame_cpu (val_add (frame_cpu f) (field data_cpu (cid s) (resolveStats s st))) f)),
   resolveStats s st).
Proof.
  unfold addStats.
  destruct (resolveStats_is_Some s st) as [[d Hd] _].
  by rewrite (getStatsData_present _ _ _ Hd).
Qed.

Lemma addStats_frameEntry f st s d :
  resolveStats s st !! cid s = Some d →
  frameEntry (fst (addStats (f, st) s)) = addEntry (frameEntry f) d.
Proof. intros Hd. rewrite addStats_eq. unfold frameEntry, addEntry, field. by rewrite Hd. Qed.

Lemma fold_addStats_invariant (P : StatEntry (A:=A) → Prop) :
  (∀ c g, P (mkStatEntry (Some c) (Some g) (Some (num_add c g)) true)) →
  (∀ d cd, P d → P cd → P (addEntry d cd)) →
  ∀ (cs : list (SampleNode (A:=A) (K:=K))) f st,
    P (frameEntry f) →
    P (frameEntry (fst (fold_left addStats cs (f, st)))) ∧
    ∀ k', entryAt P st k' ∨ k' ∈ flat_map cids cs →
          entryAt P (snd (fold_left addStats cs (f, st))) k'.
Proof.
  intros Hown Hadd cs. induction cs as [|s cs IH]; intros f st Hf; cbn [fold_left flat_map].
  - split; [done|]. intros k' [Hk'|Hk']; [done|]. by apply elem_of_nil in Hk'.
  - destruct (resolveStats_invariant P Hown Hadd s st (cid s)
                (or_intror (cid_elem_of_cids s))) as (d & Hd & HPd).
    pose proof (addStats_frameEntry f st s d Hd) as Hfe.
    rewrite addStats_eq in *. simpl in Hfe.
    set (f1 := set_frame_total _ _) in *.
    destruct (IH f1 (resolveStats s st)) as [IHf IHst].
    { rewrite Hfe. by apply Hadd. }
    split; [done|]. intros k' Hk'. apply IHst.
    rewrite elem_of_app in Hk'. destruct Hk' as [Hk'|[Hk'|Hk']].
    + left. apply resolveStats_invariant; auto.
    + left. apply resolveStats_invariant; auto.
    + by right.
Qed.

Lemma fold_addStats_startTime (cs : list (SampleNode (A:=A) (K:=K))) f st :
  startTime (fst (fold_left addStats cs (f, st))) = startTime f.
Proof.
  revert f st. induction cs as [|s cs IH]; intros f st; cbn [fold_left]; [done|].
  rewrite addStats_eq, IH. done.
Qed.


Variable easeFraction : A → A → A.

Lemma aggregateFrame_startTime frame st :
  startTime (fst (aggregateFrame frame st)) = startTime frame.
Proof. unfold aggregateFrame. by rewrite fold_addStats_startTime. Qed.

(** [resolveFrame] when the next frame is missing: nothing happens. *)
Lemma resolveFrame_absent (host : Host) frame (this : Inspector (K:=K)) :
  getFrameById host (frameId frame + 1) = None →
  resolveFrame easeFraction host frame this = (frame, this, []).
Proof. intros Hnext. unfold resolveFrame. by rewrite Hnext. Qed.

(** [resolveFrame] when the next frame is there, one property at a time. *)
Lemma resolveFrame_present (host : Host) frame (this : Inspector (K:=K)) next :
  getFrameById host (frameId frame + 1) = Some next →
  let agg := aggregateFrame frame (statsData this) in
  let dt := num_sub (startTime next) (startTime frame) in
  let misc := val_sub (Some dt) (frame_total (fst agg)) in
  let frame' := resolvedFrame easeFraction host frame this in
  let this' := resolvedInspector easeFraction host frame this in
  frame_cpu frame' = frame_cpu (fst agg) ∧
  frame_gpu frame' = frame_gpu (fst agg) ∧
  frame_total frame' = frame_total (fst agg) ∧
  frame_deltaTime frame' = Some dt ∧
  frame_miscellaneous frame' = (if val_ltb misc (Some num_zero) then Some num_zero else misc) ∧
  statsData this' = snd agg ∧
  deltaTime this' = Some dt ∧
  softDeltaTime this' =
    ease easeFraction
      (if val_eqb (softDeltaTime this) (Some num_zero) then Some dt else softDeltaTime this)
      (Some dt) (nodeFrame_deltaTime host) EASE_FACTOR ∧
  displayCycle_text this' =
    set_needsUpdate false (updateCycle (nodeFrame_deltaTime host) (displayCycle_text this)) ∧
  displayCycle_graph this' =
    set_needsUpdate false (updateCycle (nodeFrame_deltaTime host) (displayCycle_graph this)).
Proof.
  intros Hnext. cbv zeta.
  pose proof (aggregateFrame_startTime frame (statsData this)) as Hstart.
  unfold resolvedFrame, resolvedInspector, resolveFrame. rewrite Hnext.
  unfold aggregateFrame in *. cbn [frame_children set_frame_total set_frame_gpu set_frame_cpu] in *.
  destruct (fold_left addStats _ _) as [f1 st1]. cbn [fst snd] in *.
  cbn [frame_deltaTime frame_total set_frame_deltaTime set_frame_miscellaneous
       frame_miscellaneous startTime] in *.
  rewrite Hstart.
  destruct (val_ltb _ _); destruct (val_eqb _ _); destruct this; cbn; repeat split; reflexivity.
Qed.

End FrameLemmas.


(** ** The tree sum *)

Section TreeSumClaim.
Context {A : Type} `{JsNumber A}.
Context {K : Type} `{Countable K}.
Implicit Types (st : gmap K (StatEntry (A:=A))) (s n : SampleNode (A:=A) (K:=K)).

Lemma fold_left_ext_elem {X Y} (f g : Y → X → Y) (l : list X) (y : Y) :
  (∀ x y, x ∈ l → f y x = g y x) → fold_left f l y = fold_left g l y.
Proof.
  revert y. induction l as [|x l IH]; intros y Hfg; simpl; [done|].
  rewrite Hfg by (by left). apply IH. intros x' y' Hin. apply Hfg. by right.
Qed.

Lemma fold_val_add_Some {X} (f : X → A) (l : list X) (x : A) :
  fold_left (λ t d, val_add t (Some (f d))) l (Some x) =
  Some (fold_left (λ t d, num_add t (f d)) l x).
Proof. revert x. induction l as [|d l IH]; intros x; simpl; [done|]. apply IH. Qed.

Lemma treeSum_children own s :
  treeSum own s = fold_left (λ t child, num_add t (treeSum own child)) (children s) (own s).
Proof. by destruct s. Qed.

(** In any arithmetic: the total recorded for a node is its own cpu + gpu
    with the totals recorded for its children added in child order. *)
Lemma resolveStats_total_children s st n :
  NoDup (cids s) → n ∈ nodes s →
  field data_total (cid n) (resolveStats s st) = Some (treeSum ownTotal n) ∧
  totalOverChildren (resolveStats s st) n = Some (treeSum ownTotal n).
Proof.
  intros Hnd Hn.
  assert (Hfield : ∀ m, m ∈ nodes s →
            field data_total (cid m) (resolveStats s st) = Some (treeSum ownTotal m)).
  { intros m Hm. unfold field. by rewrite (resolveStats_entries s Hnd st m Hm). }
  split; [by apply Hfield|].
  unfold totalOverChildren.
  rewrite (fold_left_ext_elem _ (λ t d, val_add t (Some (treeSum ownTotal d)))).
  - by rewrite fold_val_add_Some, <- treeSum_children.
  - intros d t Hd. f_equal. apply Hfield. by apply (children_nodes s n).
Qed.

Context `{!ExactNumber A}.

(** C1, as amended.  For a sample tree whose call ids are pairwise
    distinct, and every node of it: once [resolveStats] has run on the
    tree, the total recorded under the node's call id is the node's own
    cpu + gpu with the totals recorded for its children added to it.  In
    arithmetic without rounding this is the node's own cpu + gpu plus the
    own cpu + gpu of all its descendants, and the store does not depend on
    the order in which sibling subtrees are traversed. *)
Theorem resolveStats_tree_sum s st :
  NoDup (cids s) →
  (∀ n, n ∈ nodes s →
     field data_total (cid n) (resolveStats s st) = totalOverChildren (resolveStats s st) n ∧
     field data_total (cid n) (resolveStats s st) =
       Some (sumFrom (ownTotal n) (map ownTotal (descendants n)))) ∧
  (∀ s', reorder s s' → resolveStats s' st = resolveStats s st).
Proof.
  intros Hnd. split.
  - intros n Hn. destruct (resolveStats_total_children s st n Hnd Hn) as [Hf Hc].
    split; [congruence|]. by rewrite Hf, treeSum_descendants.
  - intros s' Hr. by apply resolveStats_reorder.
Qed.

End TreeSumClaim.

(** ** Frame claims *)

Section FrameClaims.
Context {A : Type} `{JsNumber A}.
Context {K : Type} `{Countable K}.
Variable easeFraction : A → A → A.
Implicit Types (frame next : Frame (A:=A) (K:=K)) (this : Inspector (A:=A) (K:=K)).

Lemma aggregateFrame_defined frame (st : gmap K StatEntry) :
  defined (frameEntry (fst (aggregateFrame frame st))).
Proof.
  unfold aggregateFrame.
  apply (fold_addStats_invariant defined defined_own defined_addEntry).
  repeat split; simpl; eauto.
Qed.

(** In any arithmetic in which [0 < 0] is false, binary64 included, and
    whatever the samples are: [miscellaneous < 0] is false after the call. *)
Lemma miscellaneous_never_negative (host : Host) frame this next :
  num_ltb (num_zero (A:=A)) num_zero = false →
  getFrameById host (frameId frame + 1) = Some next →
  val_ltb (frame_miscellaneous (resolvedFrame easeFraction host frame this))
          (Some num_zero) = false.
Proof.
  intros Hzero Hnext.
  destruct (resolveFrame_present easeFraction host frame this next Hnext)
    as (_ & _ & _ & _ & Hmisc & _).
  rewrite Hmisc. destruct (val_ltb _ _) eqn:Hlt; [exact Hzero|exact Hlt].
Qed.

(** In ordered arithmetic, where no comparison fails: [miscellaneous] is
    [deltaTime - total], replaced by 0 when that is negative, so it is at
    least 0, and 0 for a frame whose total exceeds its [deltaTime]. *)
Lemma miscellaneous_in_ordered_arithmetic `{!OrderedNumber A} (host : Host) frame this next :
  getFrameById host (frameId frame + 1) = Some next →
  frame_deltaTime (resolvedFrame easeFraction host frame this) =
    Some (num_sub (startTime next) (startTime frame)) ∧
  (∃ total,
     frame_total (resolvedFrame easeFraction host frame this) = Some total ∧
     frame_miscellaneous (resolvedFrame easeFraction host frame this) =
       Some (if num_ltb (num_sub (num_sub (startTime next) (startTime frame)) total) num_zero
             then num_zero
             else num_sub (num_sub (startTime next) (startTime frame)) total)) ∧
  val_geb (frame_miscellaneous (resolvedFrame easeFraction host frame this)) (Some num_zero) = true ∧
  (val_ltb (frame_deltaTime (resolvedFrame easeFraction host frame this))
           (frame_total (resolvedFrame easeFraction host frame this)) = true →
   frame_miscellaneous (resolvedFrame easeFraction host frame this) = Some num_zero).
Proof.
  intros Hnext.
  destruct (resolveFrame_present easeFraction host frame this next Hnext)
    as (_ & _ & Htotal & Hdt & Hmisc & _).
  destruct (aggregateFrame_defined frame (statsData this)) as (_ & _ & [total Ht]).
  simpl in Ht. rewrite Htotal, Hdt, Hmisc, Ht. simpl.
  set (dt := num_sub (startTime next) (startTime frame)).
  split; [done|]. split; [exists total; split; [done|]; by destruct (num_ltb _ _)|].
  split.
  - destruct (num_ltb (num_sub dt total) num_zero) eqn:Hlt; simpl.
    + apply num_geb_refl.
    + rewrite num_ltb_geb in Hlt. by apply negb_false_iff in Hlt.
  - intros Hlt. by rewrite (num_ltb_sub _ _ Hlt).
Qed.

Lemma num_add_swap `{!ExactNumber A} (a b c d : A) :
  num_add (num_add a b) (num_add c d) = num_add (num_add a c) (num_add b d).
Proof.
  rewrite !num_add_assoc. f_equal. rewrite <- !num_add_assoc. f_equal. apply num_add_comm.
Qed.

Lemma consistent_own (c g : A) :
  consistent (mkStatEntry (Some c) (Some g) (Some (num_add c g)) true).
Proof. exists c, g. done. Qed.

Lemma consistent_addEntry `{!ExactNumber A} (d cd : StatEntry (A:=A)) :
  consistent d → consistent cd → consistent (addEntry d cd).
Proof.
  intros (c & g & Hc & Hg & Ht) (c' & g' & Hc' & Hg' & Ht').
  exists (num_add c c'), (num_add g g'). unfold addEntry. simpl.
  rewrite Hc, Hg, Ht, Hc', Hg', Ht'. simpl. by rewrite num_add_swap.
Qed.

(** C2, as amended.  After the resolution of a frame whose next frame is
    present, in arithmetic without rounding, [total = cpu + gpu] holds for
    every entry written during the aggregation (those under the call ids
    of the frame's samples) and for the frame record itself.  The three
    quantities are accumulated separately, so the law used is that
    addition is associative and commutative. *)
Theorem resolveFrame_total_consistent `{!ExactNumber A} (host : Host) frame this next :
  getFrameById host (frameId frame + 1) = Some next →
  (∀ k, k ∈ flat_map cids (frame_children frame) →
        entryAt consistent (statsData (resolvedInspector easeFraction host frame this)) k) ∧
  consistent (frameEntry (resolvedFrame easeFraction host frame this)).
Proof.
  intros Hnext.
  destruct (resolveFrame_present easeFraction host frame this next Hnext)
    as (Hcpu & Hgpu & Htotal & _ & _ & Hst & _).
  unfold frameEntry. rewrite Hcpu, Hgpu, Htotal, Hst.
  unfold aggregateFrame.
  edestruct (fold_addStats_invariant consistent consistent_own consistent_addEntry
               (frame_children frame)) as [Hf Hs]; [|split; [|exact Hf]].
  - exists num_zero, num_zero. simpl. by rewrite num_add_zero_r.
  - intros k Hk. apply Hs. by right.
Qed.

(** In arithmetic without rounding: when [softDeltaTime] is 0 before a
    frame is resolved, the smoothed value after the resolution is the
    frame's [deltaTime]: [ease] starts from [deltaTime] itself and moves
    a fraction of the zero distance to it. *)
Lemma bootstrap_without_rounding `{!ExactNumber A} (host : Host) frame this next :
  getFrameById host (frameId frame + 1) = Some next →
  val_eqb (softDeltaTime this) (Some num_zero) = true →
  softDeltaTime (resolvedInspector easeFraction host frame this) =
    frame_deltaTime (resolvedFrame easeFraction host frame this) ∧
  frame_deltaTime (resolvedFrame easeFraction host frame this) =
    Some (num_sub (startTime next) (startTime frame)).
Proof.
  intros Hnext Hzero.
  destruct (resolveFrame_present easeFraction host frame this next Hnext)
    as (_ & _ & _ & Hdt & _ & _ & _ & Hsoft & _).
  rewrite Hsoft, Hdt, Hzero. simpl.
  by rewrite num_sub_diag, num_mul_zero_l, num_add_zero_r.
Qed.

(** C9.  [needsUpdate] is false for both display cycles in every state
    the object reaches: after construction and after every call of
    [resolveFrame], whether it resolved the frame or returned early. *)
Theorem needsUpdate_cleared this :
  inspector_reachable easeFraction this →
  needsUpdate (displayCycle_text this) = false ∧
  needsUpdate (displayCycle_graph this) = false.
Proof.
  induction 1 as [|host frame this _ IH|stats this _ IH|k this _ IH]; try done.
  destruct (getFrameById host (frameId frame + 1)) as [next|] eqn:Hnext.
  - destruct (resolveFrame_present easeFraction host frame this next Hnext)
      as (_ & _ & _ & _ & _ & _ & _ & _ & Htext & Hgraph).
    by rewrite Htext, Hgraph.
  - unfold resolvedInspector. by rewrite resolveFrame_absent.
Qed.

End FrameClaims.

(** ** Display cycles *)

Section Cycles.
Context {A : Type} `{JsNumber A}.
Implicit Types (c : Cycle (A:=A)) (delta : A) (deltas : list A).

Lemma updateCycle_cases c delta :
  updateCycle delta c =
  if num_geb (num_add (time c) delta) (duration c)
  then mkCycle true (duration c) num_zero
  else mkCycle (needsUpdate c) (duration c) (num_add (time c) delta).
Proof. unfold updateCycle. simpl. by destruct (num_geb _ _). Qed.

Lemma advance_cases c delta :
  needsUpdate c = false →
  advance delta c =
  if num_geb (num_add (time c) delta) (duration c)
  then (true, mkCycle false (duration c) num_zero)
  else (false, mkCycle false (duration c) (num_add (time c) delta)).
Proof.
  intros Hflag. unfold advance. rewrite updateCycle_cases, Hflag.
  by destruct (num_geb _ _).
Qed.

Lemma runCycle_cons delta deltas c :
  runCycle (delta :: deltas) c =
  ((if fst (advance delta c) then 1 else 0) + fst (runCycle deltas (snd (advance delta c))),
   snd (runCycle deltas (snd (advance delta c))))%nat.
Proof.
  cbn [runCycle]. destruct (advance delta c) as [fired c1]. cbn [fst snd].
  by destruct (runCycle deltas c1).
Qed.

Context `{!OrderedNumber A}.

Lemma num_ltb_geb_false (x y : A) : num_ltb x y = true → num_geb x y = false.
Proof. rewrite num_ltb_geb. by intros ?%negb_true_iff. Qed.

Lemma sumFrom_geb (x : A) deltas :
  Forall elapsed deltas → num_geb (sumFrom x deltas) x = true.
Proof.
  intros Hall. revert x. induction Hall as [|delta r Hd _ IH]; intros x; simpl.
  - apply num_geb_refl.
  - apply (num_geb_trans _ (num_add x delta)); [apply IH|by apply num_geb_add_r].
Qed.

(** Below the duration the cycle stays silent and keeps the sum. *)
Lemma runCycle_silent deltas c :
  needsUpdate c = false → Forall elapsed deltas →
  num_ltb (sumFrom (time c) deltas) (duration c) = true →
  runCycle deltas c = (0%nat, mkCycle false (duration c) (sumFrom (time c) deltas)).
Proof.
  intros Hflag Hall. revert c Hflag.
  induction Hall as [|delta r Hd Hr IH]; intros c Hflag Hlt.
  - simpl. destruct c; simpl in *. by rewrite Hflag.
  - rewrite runCycle_cons, (advance_cases _ _ Hflag).
    assert (num_geb (num_add (time c) delta) (duration c) = false) as Hno.
    { destruct (num_geb (num_add (time c) delta) (duration c)) eqn:Hge; [|done].
      apply num_ltb_geb_false in Hlt. rewrite <- Hlt. symmetry.
      apply (num_geb_trans _ (num_add (time c) delta)); [|done].
      by apply (sumFrom_geb _ r). }
    rewrite Hno. simpl. by rewrite IH.
Qed.


Context `{!ExactNumber A}.

Lemma sumFrom_fixed (x : A) deltas :
  Forall elapsed deltas → sumFrom x deltas = x → Forall (λ delta, delta = num_zero) deltas.
Proof.
  intros Hall. revert x. induction Hall as [|delta r Hd Hr IH]; intros x Hsum; [done|].
  simpl in Hsum.
  assert (num_add x delta = x) as Heq.
  { apply num_geb_antisym; [by apply num_geb_add_r|].
    rewrite <- Hsum at 1. by apply sumFrom_geb. }
  apply num_add_cancel in Heq as ->. constructor; [done|].
  apply (IH x). by rewrite num_add_zero_r in Hsum.
Qed.

Lemma runCycle_zeros deltas (d : A) :
  num_ltb num_zero d = true →
  Forall (λ delta, delta = num_zero) deltas →
  runCycle deltas (mkCycle false d num_zero) = (0%nat, mkCycle false d num_zero).
Proof.
  intros Hd. induction 1 as [|delta r -> _ IH]; [done|].
  rewrite runCycle_cons, advance_cases by done. simpl.
  rewrite num_add_zero_r, (num_ltb_geb_false _ _ Hd). simpl. by rewrite IH.
Qed.

(** Reaching the duration exactly: one firing, and the time back at 0. *)
Lemma runCycle_once deltas c :
  needsUpdate c = false → Forall elapsed deltas →
  num_ltb num_zero (duration c) = true →
  num_ltb (time c) (duration c) = true →
  sumFrom (time c) deltas = duration c →
  runCycle deltas c = (1%nat, mkCycle false (duration c) num_zero).
Proof.
  intros Hflag Hall Hd. revert c Hflag Hd.
  induction Hall as [|delta r Hdelta Hr IH]; intros c Hflag Hd Hlt Hsum.
  - simpl in Hsum. rewrite Hsum in Hlt.
    apply num_ltb_geb_false in Hlt. by rewrite num_geb_refl in Hlt.
  - rewrite runCycle_cons, (advance_cases _ _ Hflag). simpl in Hsum.
    destruct (num_geb (num_add (time c) delta) (duration c)) eqn:Hge; simpl.
    + assert (num_add (time c) delta = duration c) as Heq.
      { apply num_geb_antisym; [done|]. rewrite <- Hsum at 1. by apply sumFrom_geb. }
      rewrite Heq in Hsum.
      rewrite runCycle_zeros; [done|done|]. by apply (sumFrom_fixed (duration c)).
    + rewrite IH; [done|done|done| |done]. simpl. rewrite num_ltb_geb, Hge. done.
Qed.

(** In ordered arithmetic without rounding, for a display cycle of
    duration [d > 0] whose flag is clear: from time 0, elapsed times that
    add up to exactly [d] fire once and leave the time at 0, while elapsed
    times that add up to less than [d] never fire. *)
Lemma cadence_without_rounding c :
  num_ltb num_zero (duration c) = true →
  needsUpdate c = false →
  (∀ delta,
     updateCycle delta c =
     if num_geb (num_add (time c) delta) (duration c)
     then mkCycle true (duration c) num_zero
     else mkCycle false (duration c) (num_add (time c) delta)) ∧
  (∀ delta,
     fst (advance delta c) = true →
     time (snd (advance delta c)) = num_zero ∧
     num_ltb (time (snd (advance delta c))) (duration (snd (advance delta c))) = true) ∧
  (∀ deltas,
     time c = num_zero → Forall elapsed deltas →
     (sumFrom num_zero deltas = duration c →
      fst (runCycle deltas c) = 1%nat ∧ time (snd (runCycle deltas c)) = num_zero) ∧
     (num_ltb (sumFrom num_zero deltas) (duration c) = true →
      fst (runCycle deltas c) = 0%nat ∧
      time (snd (runCycle deltas c)) = sumFrom num_zero deltas)).
Proof.
  intros Hd Hflag. split; [|split].
  - intros delta. by rewrite updateCycle_cases, Hflag.
  - intros delta. rewrite (advance_cases _ _ Hflag).
    destruct (num_geb _ _); simpl; [done|discriminate].
  - intros deltas Htime Hall. split.
    + intros Hsum. rewrite runCycle_once; try done; by rewrite Htime.
    + intros Hlt. rewrite runCycle_silent; try done; by rewrite Htime.
Qed.

End Cycles.

(** ** The cadence of a display cycle *)

Section Cadence.
Context {A : Type} `{JsNumber A}.
Implicit Types (c : Cycle (A:=A)) (delta : A) (deltas : list A).

Lemma runCycle_app deltas1 deltas2 c :
  runCycle (deltas1 ++ deltas2) c =
  (fst (runCycle deltas1 c) + fst (runCycle deltas2 (snd (runCycle deltas1 c))),
   snd (runCycle deltas2 (snd (runCycle deltas1 c))))%nat.
Proof.
  revert c. induction deltas1 as [|delta deltas1 IH]; intros c.
  - simpl. by destruct (runCycle deltas2 c).
  - rewrite <- app_comm_cons, !runCycle_cons, IH. cbn [fst snd]. f_equal. lia.
Qed.

(** While the running sum, as the program computes it, stays short of the
    duration, the cycle is silent and keeps the sum. *)
Lemma runCycle_below deltas c :
  needsUpdate c = false →
  (∀ n, (0 < n ≤ length deltas)%nat →
        num_geb (sumFrom (time c) (take n deltas)) (duration c) = false) →
  runCycle deltas c = (0%nat, mkCycle false (duration c) (sumFrom (time c) deltas)).
Proof.
  revert c. induction deltas as [|delta deltas IH]; intros c Hflag Hbelow.
  - simpl. destruct c; simpl in *. by rewrite Hflag.
  - rewrite runCycle_cons, (advance_cases _ _ Hflag).
    assert (num_geb (num_add (time c) delta) (duration c) = false) as ->.
    { apply (Hbelow 1%nat). simpl. lia. }
    cbn [fst snd]. rewrite IH; [done|done|].
    intros n Hn. apply (Hbelow (S n)). simpl in *. lia.
Qed.

(** C4, as amended.  For a display cycle whose flag is clear, in any
    arithmetic, binary64 included: [updateCycle] adds the delta to the
    time and sets the flag exactly when the sum it computed reaches the
    duration, putting the time back to 0, which is below a duration above
    0; so over several deltas the cycle stays silent while the running
    sum, rounded at each addition as the program computes it, is short of
    the duration, and fires at the first delta that takes it there.  In
    ordered arithmetic without rounding, elapsed times from time 0 that
    add up to exactly the duration fire once, and elapsed times that add
    up to less never fire. *)
Theorem updateCycle_cadence c :
  needsUpdate c = false →
  (∀ delta,
     updateCycle delta c =
     if num_geb (num_add (time c) delta) (duration c)
     then mkCycle true (duration c) num_zero
     else mkCycle false (duration c) (num_add (time c) delta)) ∧
  (∀ delta,
     fst (advance delta c) = true →
     time (snd (advance delta c)) = num_zero ∧
     (num_ltb num_zero (duration c) = true →
      num_ltb (time (snd (advance delta c))) (duration (snd (advance delta c))) = true)) ∧
  (∀ deltas,
     (∀ n, (0 < n ≤ length deltas)%nat →
           num_geb (sumFrom (time c) (take n deltas)) (duration c) = false) →
     runCycle deltas c = (0%nat, mkCycle false (duration c) (sumFrom (time c) deltas)) ∧
     ∀ delta,
       num_geb (sumFrom (time c) (deltas ++ [delta])) (duration c) = true →
       runCycle (deltas ++ [delta]) c = (1%nat, mkCycle false (duration c) num_zero)) ∧
  (OrderedNumber A → ExactNumber A →
   num_ltb num_zero (duration c) = true → time c = num_zero →
   ∀ deltas, Forall elapsed deltas →
     (sumFrom num_zero deltas = duration c →
      fst (runCycle deltas c) = 1%nat ∧ time (snd (runCycle deltas c)) = num_zero) ∧
     (num_ltb (sumFrom num_zero deltas) (duration c) = true →
      fst (runCycle deltas c) = 0%nat ∧
      time (snd (runCycle deltas c)) = sumFrom num_zero deltas)).
Proof.
  intros Hflag. split; [|split; [|split]].
  - intros delta. by rewrite updateCycle_cases, Hflag.
  - intros delta. rewrite (advance_cases _ _ Hflag).
    destruct (num_geb _ _); simpl; [done|discriminate].
  - intros deltas Hbelow. split; [by apply runCycle_below|].
    intros delta Hreach.
    rewrite runCycle_app, (runCycle_below deltas c Hflag Hbelow). cbn [fst snd].
    rewrite runCycle_cons, advance_cases by done. cbn [time duration].
    unfold sumFrom in Hreach. rewrite fold_left_app in Hreach. simpl in Hreach.
    unfold sumFrom. by rewrite Hreach.
  - intros HO HE Hd Htime deltas Hall.
    destruct (cadence_without_rounding c Hd Hflag) as (_ & _ & Hruns).
    by apply Hruns.
Qed.

End Cadence.

(** ** The viewer cache, proofs *)

Section ViewerLemmas.
Context {A : Type}.
Variable splitCamelCase : string → string.
Variable splitPath : string → list string * string.
Variable env : ViewerEnv (A:=A).
Abbreviation get := (getCanvasDataByNode splitCamelCase splitPath env).
Abbreviation step := (viewer_step splitCamelCase splitPath env).
Implicit Types (st : ViewerState (A:=A)) (node : NodeObj) (cd : CanvasData (A:=A)).

Lemma get_hit node st cd :
  canvasNodes st !! node_ref node = Some cd → get node st = (cd, st).
Proof. intros Hhit. unfold getCanvasDataByNode. by rewrite Hhit. Qed.

Lemma get_miss node st :
  canvasNodes st !! node_ref node = None →
  ∃ cd, get node st =
          (cd, mkViewerState (<[node_ref node := cd]> (canvasNodes st))
                 (Pos.succ (Pos.succ (Pos.succ (Pos.succ (Pos.succ (heap_next st))))))) ∧
        cd_node cd = node_ref node ∧
        Forall (λ x, (heap_next st ≤ x)%positive ∧
                     (x < Pos.succ (Pos.succ (Pos.succ (Pos.succ (Pos.succ (heap_next st))))))%positive)
               (bundleRefs cd).
Proof.
  intros Hmiss. unfold getCanvasDataByNode. rewrite Hmiss.
  destruct (splitPath _) as [path name]. eexists. split; [reflexivity|].
  split; [done|]. unfold bundleRefs. simpl. repeat constructor; lia.
Qed.

(** The bundle a call returns is the one cached afterwards. *)
Lemma get_cached node st :
  canvasNodes (snd (get node st)) !! node_ref node = Some (fst (get node st)).
Proof.
  destruct (canvasNodes st !! node_ref node) as [cd|] eqn:Hlook.
  - by rewrite (get_hit _ _ _ Hlook).
  - destruct (get_miss _ _ Hlook) as (cd & -> & _). simpl. apply lookup_insert_eq.
Qed.

(** Nothing is ever evicted or replaced. *)
Lemma step_keeps st st' r cd :
  step st st' → canvasNodes st !! r = Some cd → canvasNodes st' !! r = Some cd.
Proof.
  intros [node st0|st0] Hr; [|done].
  destruct (canvasNodes st0 !! node_ref node) as [cd'|] eqn:Hlook.
  - by rewrite (get_hit _ _ _ Hlook).
  - destruct (get_miss _ _ Hlook) as (cd' & -> & _). simpl.
    rewrite lookup_insert_ne; [done|]. intros <-. congruence.
Qed.

Lemma steps_keep st st' r cd :
  rtc step st st' → canvasNodes st !! r = Some cd → canvasNodes st' !! r = Some cd.
Proof. induction 1; eauto using step_keeps. Qed.

Lemma step_invariant st st' :
  step st st' → cache_ok st ∧ cache_disjoint st → cache_ok st' ∧ cache_disjoint st'.
Proof.
  intros [node st0|st0] [Hok Hdis].
  - destruct (canvasNodes st0 !! node_ref node) as [cd'|] eqn:Hlook.
    + by rewrite (get_hit _ _ _ Hlook).
    + destruct (get_miss _ _ Hlook) as (cd' & -> & Hnode & Hfresh). simpl. split.
      * intros r cd. simpl. rewrite lookup_insert. case_decide as Hr.
        -- intros [= <-]. subst r. split; [done|].
           eapply Forall_impl; [exact Hfresh|]. simpl. intros x [_ Hx]. done.
        -- intros Hcd. destruct (Hok r cd Hcd) as [Hn Hb]. split; [done|].
           eapply Forall_impl; [exact Hb|]. simpl. intros x Hx. lia.
      * intros r1 r2 cd1 cd2 Hne. simpl. rewrite !lookup_insert.
        repeat case_decide; subst; try done.
        -- intros [= <-] Hcd2. destruct (Hok r2 cd2 Hcd2) as [Hn Hb]. split; [congruence|].
           intros x Hx1 Hx2. rewrite Forall_forall in Hfresh, Hb.
           specialize (Hfresh x Hx1). specialize (Hb x Hx2). lia.
        -- intros Hcd1 [= <-]. destruct (Hok r1 cd1 Hcd1) as [Hn Hb]. split; [congruence|].
           intros x Hx1 Hx2. rewrite Forall_forall in Hfresh, Hb.
           specialize (Hfresh x Hx2). specialize (Hb x Hx1). lia.
        -- by apply Hdis.
  - split.
    + intros r cd Hcd. destruct (Hok r cd Hcd) as [Hn Hb]. split; [done|].
      eapply Forall_impl; [exact Hb|]. simpl. intros x Hx. lia.
    + exact Hdis.
Qed.

Lemma reachable_invariant st :
  viewer_reachable splitCamelCase splitPath env st → cache_ok st ∧ cache_disjoint st.
Proof.
  intros [h Hsteps].
  assert (cache_ok (mkViewerState (A:=A) ∅ h) ∧ cache_disjoint (mkViewerState (A:=A) ∅ h)) as Hinit.
  { split; [intros r cd Hcd|intros r1 r2 cd1 cd2 _ Hcd]; simpl in Hcd;
      by rewrite lookup_empty in Hcd. }
  revert Hinit. induction Hsteps as [|x y z Hxy _ IH]; [done|].
  intros Hx. apply IH. by apply (step_invariant x y).
Qed.

(** C8.  After a call for a node, and whatever calls and allocations
    follow, a call for the same node object (whatever its id and name
    have become) returns the bundle of the first call and leaves the cache
    and the heap as they are; a call for another node object returns a
    bundle that shows another node and owns other objects. *)
Theorem getCanvasDataByNode_cached st node st' :
  viewer_reachable splitCamelCase splitPath env st →
  rtc step (snd (get node st)) st' →
  (∀ id' name',
     get (mkNodeObj (node_ref node) id' name') st' = (fst (get node st), st')) ∧
  (∀ node2, node_ref node2 ≠ node_ref node →
     sharesNothing (fst (get node st)) (fst (get node2 st'))).
Proof.
  intros Hreach Hsteps.
  pose proof (steps_keep _ _ _ _ Hsteps (get_cached node st)) as Hcached.
  split.
  - intros id' name'. by apply get_hit.
  - intros node2 Hne.
    assert (viewer_reachable splitCamelCase splitPath env (snd (get node2 st'))) as Hreach2.
    { destruct Hreach as [h Hh]. exists h.
      etrans; [exact Hh|].
      eapply rtc_l; [apply step_get|].
      etrans; [exact Hsteps|]. apply rtc_once. apply step_get. }
    destruct (reachable_invariant _ Hreach2) as [_ Hdis].
    apply (Hdis (node_ref node) (node_ref node2)); [done| |apply get_cached].
    eapply step_keeps; [apply step_get|done].
Qed.

End ViewerLemmas.

(** ** Termination *)

Section HeapLemmas.
Context {A : Type} `{JsNumber A}.
Context {K : Type} `{Countable K}.
Implicit Types (heap : gmap Ref (SampleObj (A:=A) (K:=K))) (st : gmap K (StatEntry (A:=A))).
Implicit Types (s : SampleNode (A:=A) (K:=K)) (r : Ref).

Lemma resolveStatsAt_S fuel heap r st :
  resolveStatsAt (S fuel) heap r st =
  match heap !! r with
  | None => None
  | Some stats =>
      resolveChildrenAt fuel heap (obj_cid stats) (obj_children stats)
        (Some (writeOwn (obj_cid stats) (obj_cpu stats) (obj_gpu stats) st))
  end.
Proof. reflexivity. Qed.

Lemma resolveChildrenAt_None fuel heap k refs :
  resolveChildrenAt fuel heap k refs None = None.
Proof. induction refs as [|x refs IH]; [done|]. exact IH. Qed.

Lemma resolveChildrenAt_cons fuel heap k x refs st :
  resolveChildrenAt fuel heap k (x :: refs) (Some st) =
  resolveChildrenAt fuel heap k refs
    (match resolveStatsAt fuel heap x st, heap !! x with
     | Some st, Some childObj => Some (addChild k (obj_cid childObj) st)
     | _, _ => None
     end).
Proof. reflexivity. Qed.

Lemma height_cons k c g (cs : list (SampleNode (A:=A) (K:=K))) :
  height (Sample k c g cs) = S (fold_right (λ child h, Nat.max (height child) h) 0%nat cs).
Proof. reflexivity. Qed.

Lemma height_children (cs : list (SampleNode (A:=A) (K:=K))) n :
  (fold_right (λ child h, Nat.max (height child) h) 0%nat cs ≤ n)%nat ↔
  Forall (λ child, (height child ≤ n)%nat) cs.
Proof.
  induction cs as [|x cs IH]; simpl.
  - split; [constructor|lia].
  - rewrite Forall_cons, <- IH. lia.
Qed.

Lemma represents_cid heap r s o :
  represents heap r s → heap !! r = Some o → obj_cid o = cid s.
Proof. intros [r' k c g refs cs Hr _] Ho. rewrite Hr in Ho. by injection Ho as <-. Qed.

(** On the unfolding of a finite tree the call returns what the
    structural traversal computes, as soon as the stack covers the height. *)
Lemma resolveStatsAt_tree heap s :
  ∀ r fuel st, represents heap r s → (height s ≤ fuel)%nat →
    resolveStatsAt fuel heap r st = Some (resolveStats s st).
Proof.
  induction s as [k c g cs IH] using SampleNode_forall_ind.
  intros r fuel st Hrep Hfuel. rewrite height_cons in Hfuel.
  destruct fuel as [|fuel]; [lia|].
  apply le_S_n, height_children in Hfuel.
  inversion Hrep as [r' k' c' g' refs cs' Hr Hall]; subst.
  rewrite resolveStatsAt_S, Hr, resolveStats_unfold. simpl.
  generalize (writeOwn k c g st). clear Hr Hrep st.
  induction Hall as [|x child refs cs Hx _ IHall]; intros st; [done|].
  apply Forall_cons in IH as [IHchild IHcs]. apply Forall_cons in Hfuel as [Hchild Hcs].
  rewrite resolveChildrenAt_cons, resolveChildren_cons.
  rewrite (IHchild x fuel st Hx Hchild).
  inversion Hx as [x' k' c' g' refs' cs' Hlook _]; subst. rewrite Hlook. simpl.
  by apply IHall.
Qed.

(** Conversely, a call that returns has walked a finite tree no higher
    than its stack. *)
Lemma resolveStatsAt_returns heap fuel :
  ∀ r st st', resolveStatsAt fuel heap r st = Some st' →
    ∃ s, represents heap r s ∧ (height s ≤ fuel)%nat ∧ st' = resolveStats s st.
Proof.
  induction fuel as [|fuel IH]; intros r st st' Hret; [done|].
  rewrite resolveStatsAt_S in Hret.
  destruct (heap !! r) as [[k c g refs]|] eqn:Hr; [|done]. simpl in Hret.
  assert (∃ cs, Forall2 (represents heap) refs cs ∧
                Forall (λ child, (height child ≤ fuel)%nat) cs ∧
                st' = resolveChildren k cs (writeOwn k c g st)) as (cs & Hall & Hh & ->).
  { revert Hret. generalize (writeOwn k c g st). clear Hr st.
    induction refs as [|x refs IHrefs]; intros st Hret.
    - exists []. simpl in Hret. injection Hret as <-. repeat split; constructor.
    - rewrite resolveChildrenAt_cons in Hret.
      destruct (resolveStatsAt fuel heap x st) as [st1|] eqn:Hx;
        [|by rewrite resolveChildrenAt_None in Hret].
      destruct (heap !! x) as [xo|] eqn:Hxo;
        [|by rewrite resolveChildrenAt_None in Hret].
      destruct (IH x st st1 Hx) as (child & Hrep & Hheight & ->).
      destruct (IHrefs _ Hret) as (cs & Hall & Hh & ->).
      exists (child :: cs). split; [by constructor|]. split; [by constructor|].
      rewrite resolveChildren_cons. by rewrite (represents_cid heap x child xo Hrep Hxo). }
  exists (Sample k c g cs). split; [by econstructor|]. split; [|done].
  rewrite height_cons. apply le_n_S. by apply height_children.
Qed.

(** X6.  There is no guard against cycles: from a sample object with an
    endless chain of children ([loop] is a set of objects each of which has
    a child in the set) the call returns at no stack depth. *)
Theorem resolveStatsAt_cyclic heap (loop : Ref → Prop) :
  (∀ x, loop x → ∃ o y, heap !! x = Some o ∧ y ∈ obj_children o ∧ loop y) →
  ∀ fuel x st, loop x → resolveStatsAt fuel heap x st = None.
Proof.
  intros Hloop fuel. induction fuel as [|fuel IH]; intros x st Hx; [done|].
  rewrite resolveStatsAt_S. destruct (Hloop x Hx) as (o & y & -> & Hy & Hly).
  generalize (writeOwn (obj_cid o) (obj_cpu o) (obj_gpu o) st).
  induction (obj_children o) as [|z refs IHrefs]; intros st0.
  - by apply elem_of_nil in Hy.
  - rewrite resolveChildrenAt_cons. apply elem_of_cons in Hy as [<-|Hy].
    + rewrite (IH y st0 Hly). apply resolveChildrenAt_None.
    + destruct (resolveStatsAt fuel heap z st0); [|apply resolveChildrenAt_None].
      destruct (heap !! z); [|apply resolveChildrenAt_None]. by apply IHrefs.
Qed.

(** C10.  [resolveStats] returns on every sample object that unfolds to
    a finite tree, with the store the structural traversal computes, as
    soon as the stack covers the height of the tree; and a call that
    returns has walked such a tree, so nothing but the shape of the input
    bounds the recursion. *)
Theorem resolveStats_terminates heap r st :
  (∀ s fuel, represents heap r s → (height s ≤ fuel)%nat →
     resolveStatsAt fuel heap r st = Some (resolveStats s st)) ∧
  (∀ fuel st', resolveStatsAt fuel heap r st = Some st' →
     ∃ s, represents heap r s ∧ (height s ≤ fuel)%nat ∧ st' = resolveStats s st).
Proof.
  split.
  - intros s fuel Hrep Hfuel. by apply resolveStatsAt_tree.
  - intros fuel st'. apply resolveStatsAt_returns.
Qed.

End HeapLemmas.

(** ** Shared call ids *)

Section SharedCids.
Context {A : Type} `{JsNumber A}.
Context {K : Type} `{Countable K}.

(** C5, as amended.  Nodes that share a call id share one entry, and each
    visit overwrites it: after [resolveStats] on a node, the entry under
    the call id of its last child holds the sums of that child alone,
    whatever earlier children with the same call id left there, while the
    node's own entry holds the sums over all its children.  (No node
    carries the call id of one of its own descendants.) *)
Theorem resolveStats_last_visit_wins (k : K) (c g : A) cs last (st : gmap K StatEntry) :
  nestedDistinct (Sample k c g (cs ++ [last])) →
  resolveStats (Sample k c g (cs ++ [last])) st !! cid last = Some (entryOf last) ∧
  resolveStats (Sample k c g (cs ++ [last])) st !! k =
    Some (entryOf (Sample k c g (cs ++ [last]))).
Proof.
  intros Hnd. split.
  - by apply resolveStats_last_child.
  - by apply (resolveStats_own (Sample k c g (cs ++ [last]))).
Qed.

End SharedCids.

(** ** The two cadences *)

Section Cadences.
Context {K : Type} `{Countable K}.


End Cadences.

(** ** Further properties *)

Section Further.
Context {A : Type} `{JsNumber A}.
Context {K : Type} `{Countable K}.
Variable easeFraction : A → A → A.
Implicit Types (st : gmap K (StatEntry (A:=A))) (s : SampleNode (A:=A) (K:=K)).
Implicit Types (frame next : Frame (A:=A) (K:=K)) (this : Inspector (A:=A) (K:=K)).

Lemma cids_nodes s k : k ∈ cids s → ∃ n, n ∈ nodes s ∧ cid n = k.
Proof.
  induction s as [k0 c g cs IH] using SampleNode_forall_ind.
  rewrite elem_of_cids_cons. intros [->|(child & Hc & Hi)].
  - eexists. split; [apply self_elem_of_nodes|done].
  - rewrite Forall_forall in IH. destruct (IH child Hc Hi) as (n & Hn & Heq).
    exists n. split; [|done]. apply elem_of_nodes_cons. right. eauto.
Qed.

(** X2.  [resolveStats] writes under the call ids of its tree only: every
    other entry of the store is left as it was. *)
Theorem resolveStats_writes_its_cids_only s st k :
  k ∉ cids s → resolveStats s st !! k = st !! k.
Proof. apply resolveStats_frame. Qed.

(** X3.  Each call overwrites rather than accumulates: on a tree with
    pairwise distinct call ids, running [resolveStats] a second time on
    the same samples changes nothing. *)
Theorem resolveStats_idempotent s st :
  NoDup (cids s) → resolveStats s (resolveStats s st) = resolveStats s st.
Proof.
  intros Hnd. apply map_eq. intros i.
  destruct (decide (i ∈ cids s)) as [Hin|Hout].
  - destruct (cids_nodes s i Hin) as (n & Hn & <-).
    by rewrite !(resolveStats_entries s Hnd _ n Hn).
  - by rewrite resolveStats_frame.
Qed.

(** X4.  The user interface is called on the cadences only: the text
    calls are made exactly when the text cycle has its flag set after
    [updateCycle], the graph call exactly when the graph cycle has, text
    first. *)
Theorem resolveFrame_ui_calls (host : Host) frame this next :
  getFrameById host (frameId frame + 1) = Some next →
  map uiKind (uiCalls easeFraction host frame this) =
    (if fst (advance (nodeFrame_deltaTime host) (displayCycle_text this))
     then [CallSetText; CallUpdateText] else []) ++
    (if fst (advance (nodeFrame_deltaTime host) (displayCycle_graph this))
     then [CallUpdateGraph] else []).
Proof.
  intros Hnext. unfold uiCalls, resolveFrame, advance. rewrite Hnext.
  destruct (fold_left addStats _ _) as [f1 st1].
  destruct (val_ltb _ _); destruct (val_eqb _ _); destruct this; cbn;
    destruct (needsUpdate (updateCycle _ _)); destruct (needsUpdate (updateCycle _ _));
    reflexivity.
Qed.

(** X8.  In any arithmetic, binary64 included: on a tree with pairwise
    distinct call ids, the cpu, gpu and total recorded for every node are
    the node's own values with those recorded for its children added in
    child order. *)
Theorem resolveStats_sums_over_children s st n :
  NoDup (cids s) → n ∈ nodes s →
  field data_cpu (cid n) (resolveStats s st) =
    fold_left (λ t d, val_add t (field data_cpu (cid d) (resolveStats s st)))
      (children n) (Some (cpu n)) ∧
  field data_gpu (cid n) (resolveStats s st) =
    fold_left (λ t d, val_add t (field data_gpu (cid d) (resolveStats s st)))
      (children n) (Some (gpu n)) ∧
  field data_total (cid n) (resolveStats s st) =
    fold_left (λ t d, val_add t (field data_total (cid d) (resolveStats s st)))
      (children n) (Some (num_add (cpu n) (gpu n))).
Proof.
  intros Hnd Hn.
  assert (Hentry : ∀ m, m ∈ nodes s →
            resolveStats s st !! cid m = Some (entryOf m))
    by (intros m Hm; by apply resolveStats_entries).
  unfold field. rewrite (Hentry n Hn). simpl.
  repeat split.
  - rewrite (fold_left_ext_elem _ (λ t d, val_add t (Some (treeSum cpu d)))).
    + by rewrite fold_val_add_Some, <- treeSum_children.
    + intros d t Hd. by rewrite (Hentry d (children_nodes s n d Hn Hd)).
  - rewrite (fold_left_ext_elem _ (λ t d, val_add t (Some (treeSum gpu d)))).
    + by rewrite fold_val_add_Some, <- treeSum_children.
    + intros d t Hd. by rewrite (Hentry d (children_nodes s n d Hn Hd)).
  - change (num_add (cpu n) (gpu n)) with (ownTotal n).
    rewrite (fold_left_ext_elem _ (λ t d, val_add t (Some (treeSum ownTotal d)))).
    + by rewrite fold_val_add_Some, <- (treeSum_children ownTotal).
    + intros d t Hd. by rewrite (Hentry d (children_nodes s n d Hn Hd)).
Qed.

(** X5.  [getStatsData] is get-or-create: an object stored under the key
    is returned as it is and the map is left alone; a key seen for the
    first time gets the empty object; either way the object returned is
    the one stored under the key afterwards, a second call returns it
    again and changes nothing, and no other key is touched. *)
Theorem getStatsData_get_or_create (k : K) st :
  (∀ d, st !! k = Some d → getStatsData k st = (d, st)) ∧
  (st !! k = None → fst (getStatsData k st) = emptyEntry) ∧
  snd (getStatsData k st) !! k = Some (fst (getStatsData k st)) ∧
  getStatsData k (snd (getStatsData k st)) =
    (fst (getStatsData k st), snd (getStatsData k st)) ∧
  (∀ k', k' ≠ k → snd (getStatsData k st) !! k' = st !! k').
Proof.
  split; [intros d Hd; by apply getStatsData_present|]. split.
  { intros Hk. unfold getStatsData. by rewrite Hk. }
  split; [apply getStatsData_lookup|]. split.
  - apply getStatsData_present, getStatsData_lookup.
  - intros k' Hne. by apply getStatsData_lookup_ne.
Qed.

End Further.

(** ** binary64 and the sign of [miscellaneous] *)

(** A binary64 number that is not below 0 is [NaN] or at least 0. *)
Lemma binary64_not_below_zero (x : float) :
  PrimFloat.ltb x 0%float = false →
  Prim2SF x = S754_nan ∨ PrimFloat.leb 0%float x = true.
Proof.
  rewrite ltb_spec, leb_spec. unfold SFltb, SFleb.
  change (Prim2SF 0%float) with (S754_zero false).
  destruct (Prim2SF x) as [s|s| |s m e]; simpl.
  - auto.
  - destruct s; [discriminate|auto].
  - auto.
  - destruct s; [discriminate|auto].
Qed.

(** X7.  In binary64, for any frame, samples and state: after
    [resolveFrame] has resolved a frame, [miscellaneous] is a number that
    is at least 0, unless it is [NaN] (which takes a [NaN] or infinite
    input). *)
Theorem miscellaneous_binary64 {K : Type} `{Countable K}
    (easeFraction : float → float → float) (host : Host (A:=float) (K:=K))
    (frame next : Frame) (this : Inspector) :
  getFrameById host (frameId frame + 1) = Some next →
  ∃ m, frame_miscellaneous (resolvedFrame easeFraction host frame this) = Some m ∧
       (Prim2SF m = S754_nan ∨ PrimFloat.leb 0%float m = true).
Proof.
  intros Hnext.
  destruct (resolveFrame_present easeFraction host frame this next Hnext)
    as (_ & _ & _ & _ & Hmisc & _).
  destruct (aggregateFrame_defined frame (statsData this)) as (_ & _ & [total Ht]).
  simpl in Ht. rewrite Hmisc, Ht. simpl.
  destruct (PrimFloat.ltb _ _) eqn:Hlt.
  - exists 0%float. split; [done|]. right. reflexivity.
  - eexists. split; [done|]. by apply binary64_not_below_zero.
Qed.

(** ** Rounding in binary64 *)

Section Rounding64.
Open Scope Z_scope.

Lemma digits2_pos_size (p : positive) : digits2_pos p = Pos.size p.
Proof. induction p as [p IH|p IH|]; simpl; by rewrite ?IH. Qed.

(** [2 ^ (digits - 1) <= p < 2 ^ digits]. *)
Lemma digits2_pos_bounds (p : positive) :
  2 ^ (Zpos (digits2_pos p) - 1) ≤ Zpos p < 2 ^ Zpos (digits2_pos p).
Proof.
  rewrite digits2_pos_size. split.
  - pose proof (Pos.size_le p) as Hle.
    assert (Zpos (2 ^ Pos.size p) ≤ Zpos p~0) as Hz by exact Hle.
    rewrite Pos2Z.inj_pow in Hz.
    assert (2 ^ Zpos (Pos.size p) = 2 * 2 ^ (Zpos (Pos.size p) - 1)) as Heq.
    { rewrite <- Z.pow_succ_r by lia. f_equal. lia. }
    rewrite Heq in Hz. lia.
  - pose proof (Pos.size_gt p) as Hgt.
    assert (Zpos p < Zpos (2 ^ Pos.size p)) as Hz by exact Hgt.
    by rewrite Pos2Z.inj_pow in Hz.
Qed.

Lemma iter_pos_iter {X} (f : X → X) (n : positive) (x : X) :
  SpecFloat.iter_pos f n x = Pos.iter f x n.
Proof.
  revert x. induction n as [n IH|n IH|]; intros x; simpl; [|by rewrite !IH|done].
  rewrite !IH. by rewrite <- !Pos.iter_swap.
Qed.

Lemma shr_1_div2 (mrs : shr_record) :
  0 ≤ shr_m mrs → shr_m (shr_1 mrs) = Z.div2 (shr_m mrs).
Proof. destruct mrs as [[|[p|p|]|p] r s]; simpl; intros; try done; lia. Qed.

Lemma shr_iter (n : positive) (mrs : shr_record) :
  0 ≤ shr_m mrs → shr_m (Pos.iter shr_1 mrs n) = shr_m mrs / 2 ^ Zpos n.
Proof.
  intros Hm. rewrite <- Z.shiftr_div_pow2 by lia.
  change (Z.shiftr (shr_m mrs) (Zpos n)) with (Pos.iter Z.div2 (shr_m mrs) n).
  revert mrs Hm. induction n as [|n IH] using Pos.peano_ind; intros mrs Hm.
  - simpl. by apply shr_1_div2.
  - rewrite !Pos.iter_succ. rewrite shr_1_div2.
    + by rewrite IH.
    + rewrite IH by done.
      change (Pos.iter Z.div2 (shr_m mrs) n) with (Z.shiftr (shr_m mrs) (Zpos n)).
      apply Z.shiftr_nonneg. done.
Qed.

(** The precision and the largest exponent of the format. *)
Variable pr em : Z.
Hypothesis pr_pos : 0 < pr.

(** Shifting a positive mantissa into the format keeps it positive, at an
    exponent that is not below the least one. *)
Lemma shr_fexp_pos (m e : Z) (l : location) :
  0 < m → SpecFloat.emin pr em ≤ e →
  0 < shr_m (fst (shr_fexp pr em m e l)) ∧ SpecFloat.emin pr em ≤ snd (shr_fexp pr em m e l).
Proof.
  intros Hm He. unfold shr_fexp, shr.
  assert (shr_m (shr_record_of_loc m l) = m) as Hrec.
  { by destruct l as [|[| |]]. }
  destruct (fexp pr em (Zdigits2 m + e) - e) as [|n|n] eqn:Hn; simpl;
    try (rewrite Hrec; done).
  rewrite iter_pos_iter, shr_iter, Hrec by (rewrite Hrec; lia).
  destruct m as [|p|p]; try lia. simpl in Hn.
  unfold fexp, SpecFloat.emin in *.
  assert (Zpos n = Zpos (digits2_pos p) - pr) as Hshift by lia.
  pose proof (digits2_pos_bounds p) as [Hlo _].
  split; [|lia].
  apply Z.div_str_pos. split; [apply Z.pow_pos_nonneg; lia|].
  etrans; [|exact Hlo]. apply Z.pow_le_mono_r; lia.
Qed.

Lemma round_nearest_even_pos (m : Z) (l : location) : 0 < m → 0 < round_nearest_even m l.
Proof. intros Hm. destruct l as [|[| |]]; simpl; try done; try lia. destruct (Z.even m); lia. Qed.

(** Rounding what is not zero does not give zero: the result is a number
    of the sign asked for, or its infinity. *)
Lemma binary_round_aux_sign (sx : bool) (m e : Z) (l : location) :
  0 < m → SpecFloat.emin pr em ≤ e →
  (∃ m' e', binary_round_aux pr em sx m e l = S754_finite sx m' e') ∨
  binary_round_aux pr em sx m e l = S754_infinity sx.
Proof.
  intros Hm He. unfold binary_round_aux.
  destruct (shr_fexp_pos m e l Hm He) as [Hm1 He1].
  destruct (shr_fexp pr em m e l) as [mrs1 e1]. simpl in Hm1, He1.
  pose proof (round_nearest_even_pos (shr_m mrs1) (loc_of_shr_record mrs1) Hm1) as Hr.
  destruct (shr_fexp_pos _ e1 loc_Exact Hr He1) as [Hm2 _].
  destruct (shr_fexp pr em _ e1 loc_Exact) as [mrs2 e2]. simpl in Hm2.
  destruct (shr_m mrs2) as [|p|p]; try lia.
  destruct (e2 <=? em - pr); eauto.
Qed.

Lemma binary_round_sign (sx : bool) (p : positive) (e : Z) :
  SpecFloat.emin pr em ≤ e →
  (∃ m' e', binary_round pr em sx p e = S754_finite sx m' e') ∨
  binary_round pr em sx p e = S754_infinity sx.
Proof.
  intros He. unfold binary_round, shl_align.
  destruct (fexp pr em (Zpos (digits2_pos p) + e) - e) eqn:Hd;
    apply binary_round_aux_sign; try done.
  unfold fexp, SpecFloat.emin in *. lia.
Qed.

(** The mantissa aligned to a lower exponent. *)
Lemma shl_align_value (m : positive) (e ez : Z) :
  ez ≤ e → Zpos (fst (shl_align m e ez)) = Zpos m * 2 ^ (e - ez).
Proof.
  intros Hle. unfold shl_align. destruct (ez - e) as [|d|d] eqn:Hd; simpl; try lia.
  - assert (e - ez = 0) as -> by lia. simpl. lia.
  - assert (e - ez = Zpos d) as -> by lia. clear.
    induction d as [|d IH] using Pos.peano_ind.
    + simpl. lia.
    + rewrite Pos.iter_succ. rewrite Pos2Z.inj_succ, Z.pow_succ_r by lia.
      rewrite Pos2Z.inj_xO, IH. lia.
Qed.

(** A valid finite number has an exponent from the least one up, and a
    full mantissa above it. *)
Lemma bounded_exponent (m : positive) (e : Z) :
  bounded pr em m e = true →
  SpecFloat.emin pr em ≤ e ∧ Zpos (digits2_pos m) ≤ pr ∧
  (SpecFloat.emin pr em < e → Zpos (digits2_pos m) = pr).
Proof.
  unfold bounded, canonical_mantissa, fexp, SpecFloat.emin. intros Hb.
  apply andb_prop in Hb as [Hc _]. apply Z.eqb_eq in Hc. lia.
Qed.

(** In canonical form the smaller exponent is the smaller number. *)
Lemma aligned_lt (m1 m2 : positive) (e1 e2 : Z) :
  bounded pr em m1 e1 = true → bounded pr em m2 e2 = true →
  e1 < e2 →
  Zpos (fst (shl_align m1 e1 (Z.min e1 e2))) < Zpos (fst (shl_align m2 e2 (Z.min e1 e2))).
Proof.
  intros H1 H2 Hlt.
  destruct (bounded_exponent m1 e1 H1) as (He1 & Hd1 & _).
  destruct (bounded_exponent m2 e2 H2) as (_ & _ & Hd2).
  rewrite !shl_align_value by lia. rewrite Z.min_l by lia.
  rewrite Z.sub_diag. simpl (2 ^ 0). rewrite Z.mul_1_r.
  pose proof (digits2_pos_bounds m1) as [_ Hhi].
  pose proof (digits2_pos_bounds m2) as [Hlo _].
  rewrite Hd2 in Hlo by lia.
  assert (2 ^ Zpos (digits2_pos m1) ≤ 2 ^ pr) by (apply Z.pow_le_mono_r; lia).
  assert (2 ^ pr = 2 ^ (pr - 1) * 2 ^ 1) as Hp.
  { rewrite <- Z.pow_add_r by lia. f_equal. lia. }
  assert (2 ^ 1 ≤ 2 ^ (e2 - e1)) by (apply Z.pow_le_mono_r; lia).
  assert (0 < 2 ^ (pr - 1)) by (apply Z.pow_pos_nonneg; lia).
  nia.
Qed.

Lemma aligned_same (m : positive) (e : Z) :
  Zpos (fst (shl_align m e (Z.min e e))) = Zpos m.
Proof. rewrite shl_align_value by lia. rewrite Z.min_id, Z.sub_diag. simpl. lia. Qed.

(** Subtracting the larger of two numbers gives a number below zero, not
    a zero: a difference does not underflow to zero. *)
Lemma SFsub_lt (a b : spec_float) :
  SpecFloat.valid_binary pr em a = true → SpecFloat.valid_binary pr em b = true →
  SFltb a b = true → SFltb (SFsub pr em a b) (S754_zero false) = true.
Proof.
  intros Ha Hb Hlt.
  assert (Hneg : ∀ p e, SpecFloat.emin pr em ≤ e →
            SFltb (binary_round pr em true p e) (S754_zero false) = true).
  { intros p e He. destruct (binary_round_sign true p e He) as [(m' & e' & ->)| ->]; done. }
  destruct a as [sa|sa| |sa ma ea], b as [sb|sb| |sb mb eb];
    try discriminate; try (by destruct sa, sb); try (by destruct sa); try (by destruct sb).
  simpl in Ha, Hb.
  destruct (bounded_exponent ma ea Ha) as (Hea & _).
  destruct (bounded_exponent mb eb Hb) as (Heb & _).
  unfold SFsub.
  set (A := Zpos (fst (shl_align ma ea (Z.min ea eb)))).
  set (B := Zpos (fst (shl_align mb eb (Z.min ea eb)))).
  assert (0 < A ∧ 0 < B) as [HA HB] by (unfold A, B; lia).
  assert (cond_Zopp sa A - cond_Zopp sb B < 0) as Hdiff.
  { unfold SFltb, SFcompare in Hlt.
    destruct sa, sb; simpl; try discriminate; try lia.
    - destruct (ea ?= eb) eqn:Hc; try discriminate.
      + apply Z.compare_eq in Hc. subst eb. unfold A, B. rewrite !aligned_same.
        destruct (Pos.compare_cont Eq ma mb) eqn:Hm; try discriminate.
        rewrite Pos.compare_gt_iff in Hm. lia.
      + rewrite Z.compare_gt_iff in Hc.
        pose proof (aligned_lt mb ma eb ea Hb Ha Hc) as Hal.
        rewrite Z.min_comm in Hal. unfold A, B. lia.
    - destruct (ea ?= eb) eqn:Hc; try discriminate.
      + apply Z.compare_eq in Hc. subst eb. unfold A, B. rewrite !aligned_same.
        destruct (Pos.compare_cont Eq ma mb) eqn:Hm; try discriminate.
        rewrite Pos.compare_lt_iff in Hm. lia.
      + rewrite Z.compare_lt_iff in Hc.
        pose proof (aligned_lt ma mb ea eb Ha Hb Hc) as Hal. unfold A, B. lia. }
  destruct (cond_Zopp sa A - cond_Zopp sb B) as [|p|p] eqn:Hz; try lia.
  simpl. apply Hneg. lia.
Qed.

End Rounding64.

(** In binary64 [x < y] makes [x - y] negative. *)
Lemma ltb_sub64 (x y : float) :
  (x <? y)%float = true → (x - y <? 0)%float = true.
Proof.
  rewrite !ltb_spec, sub_spec. change (Prim2SF 0%float) with (S754_zero false).
  apply SFsub_lt; [done|apply Prim2SF_valid|apply Prim2SF_valid].
Qed.

(** A finite number minus itself is +0. *)
Lemma sub_diag64 (x : float) : finite64 x = true → (x - x)%float = 0%float.
Proof.
  unfold finite64. intros Hx. apply Prim2SF_inj. rewrite sub_spec.
  destruct (Prim2SF x) as [s|s| |s m e]; try done.
  - by destruct s.
  - unfold SF64sub, SFsub. rewrite Z.sub_diag. reflexivity.
Qed.




(** ** The frame claims in binary64 *)

Section Binary64Claims.
Context {K : Type} `{Countable K}.
Variable easeFraction : float → float → float.
Implicit Types (host : Host (A:=float) (K:=K)).
Implicit Types (frame next : Frame (A:=float) (K:=K)) (this : Inspector (A:=float) (K:=K)).

(** C3, as amended.  In binary64, when the next frame exists,
    [resolveFrame] sets [deltaTime] to the difference of the two start
    times and [miscellaneous] to [deltaTime - total], replaced by 0 when
    that is below 0.  So [miscellaneous] is never below 0: it is at least
    0, unless [deltaTime - total] is [NaN], and then it is [NaN]; and a
    frame whose total exceeds its [deltaTime] ends with [miscellaneous]
    equal to 0. *)
Theorem resolveFrame_miscellaneous host frame this next :
  getFrameById host (frameId frame + 1) = Some next →
  frame_deltaTime (resolvedFrame easeFraction host frame this) =
    Some (startTime next - startTime frame)%float ∧
  ∃ total m,
    frame_total (resolvedFrame easeFraction host frame this) = Some total ∧
    frame_miscellaneous (resolvedFrame easeFraction host frame this) = Some m ∧
    m = (if (startTime next - startTime frame - total <? 0)%float
         then 0%float else (startTime next - startTime frame - total)%float) ∧
    (m <? 0)%float = false ∧
    (Prim2SF m = S754_nan ∨ (0 <=? m)%float = true) ∧
    (Prim2SF m = S754_nan ↔
     Prim2SF (startTime next - startTime frame - total)%float = S754_nan) ∧
    ((startTime next - startTime frame <? total)%float = true → m = 0%float).
Proof.
  intros Hnext.
  destruct (resolveFrame_present easeFraction host frame this next Hnext)
    as (_ & _ & Htotal & Hdt & Hmisc & _).
  destruct (aggregateFrame_defined frame (statsData this)) as (_ & _ & [total Ht]).
  simpl in Ht. rewrite Htotal, Hdt, Hmisc, Ht. simpl.
  split; [done|]. exists total.
  set (diff := (startTime next - startTime frame - total)%float).
  destruct (diff <? 0)%float eqn:Hlt.
  - exists 0%float. split; [done|]. split; [done|]. split; [done|].
    split; [reflexivity|]. split; [by right|]. split; [|done]. split.
    + intros Hnan. vm_compute in Hnan. discriminate.
    + intros Hnan. rewrite ltb_spec, Hnan in Hlt. discriminate.
  - exists diff. split; [done|]. split; [done|]. split; [done|].
    split; [exact Hlt|]. split; [by apply binary64_not_below_zero|]. split; [done|].
    intros Hgt. apply ltb_sub64 in Hgt. fold diff in Hgt. congruence.
Qed.


(** X21.  The getter [fps] after a frame is resolved, in binary64: 1000
    divided by the difference of the two start times; a zero difference
    is no error: when both frames carry the same finite start time, [fps]
    is +Infinity, as [fps] and [softFPS] both are on a new inspector. *)
Theorem fps_after_resolveFrame host frame this next :
  getFrameById host (frameId frame + 1) = Some next →
  fps (resolvedInspector easeFraction host frame this) =
    Some (1000 / (startTime next - startTime frame))%float ∧
  (startTime next = startTime frame → finite64 (startTime frame) = true →
   fps (resolvedInspector easeFraction host frame this) = Some infinity) ∧
  fps (newInspector (A:=float) (K:=K)) = Some infinity ∧
  softFPS (newInspector (A:=float) (K:=K)) = Some infinity.
Proof.
  intros Hnext.
  destruct (resolveFrame_present easeFraction host frame this next Hnext)
    as (_ & _ & _ & _ & _ & _ & Hdt & _).
  unfold fps. rewrite Hdt. simpl. split; [done|]. split; [|done].
  intros -> Hfin. by rewrite (sub_diag64 _ Hfin).
Qed.

End Binary64Claims.

(** ** The console, proofs *)

Section ConsoleLemmas.
Open Scope string_scope.
Open Scope list_scope.
Implicit Types (st : ConsoleState) (type message key : string).

(** Among the handled types the key tells the type and the message: no
    one of [log], [warn] and [error] starts like another. *)
Lemma handled_key_inj t1 m1 t2 m2 :
  handled t1 → handled t2 → t1 +:+ m1 = t2 +:+ m2 → t1 = t2 ∧ m1 = m2.
Proof.
  intros [-> | [-> | ->]] [-> | [-> | ->]] Heq; cbv [String.append] in Heq;
    try discriminate; split; try done; congruence.
Qed.

Lemma handled_key_stored type message o :
  handled type → type +:+ message ∈ once_set (type +:+ message) o.
Proof.
  intros Hh. unfold once_set. case_decide as Hp.
  - destruct Hh as [-> | [-> | ->]]; cbv [String.append] in Hp; discriminate.
  - apply elem_of_union. left. by apply elem_of_singleton.
Qed.

Lemma once_set_mono key o x : x ∈ o → x ∈ once_set key o.
Proof. unfold once_set. case_decide; [done|]. intros Hx. apply elem_of_union. by right. Qed.

Lemma once_set_elem key o x : x ∈ once_set key o → x = key ∨ x ∈ o.
Proof.
  unfold once_set. case_decide; [by right|].
  rewrite elem_of_union, elem_of_singleton. tauto.
Qed.

Lemma eventKey_AddMessage type message :
  handled type → eventKey (AddMessage (levelOf type) message) = type +:+ message.
Proof. intros [-> | [-> | ->]]; done. Qed.

Lemma resolveConsole_handled type message out :
  handled type →
  ∃ e, resolveConsole type message out = out ++ [AddMessage (levelOf type) message; e] ∧
       e ≠ AddMessage (levelOf type) message ∧
       eventKey e = type +:+ message.
Proof.
  intros [-> | [-> | ->]]; unfold resolveConsole, levelOf; simpl; eexists;
    (split; [reflexivity|]); done.
Qed.

Lemma resolveConsole_unhandled type message out :
  ¬ handled type → resolveConsole type message out = out.
Proof.
  intros Hn. unfold resolveConsole, handled in *. repeat case_decide; tauto.
Qed.

Lemma resolveConsole_app type message out :
  resolveConsole type message out = out ++ resolveConsole type message [].
Proof. unfold resolveConsole. repeat case_decide; simpl; by rewrite ?app_nil_r. Qed.

Lemma handled_dec type : Decision (handled type).
Proof. unfold handled. apply _. Qed.

Lemma resolveConsoleOnce_cases type message st :
  resolveConsoleOnce type message st =
  if decide (type +:+ message ∈ once st) then st
  else mkConsoleState (once_set (type +:+ message) (once st))
         (resolveConsole type message (consoleOut st)).
Proof.
  unfold resolveConsoleOnce, once_missing. cbv zeta.
  case_bool_decide; case_decide; done.
Qed.

Lemma AddMessage_levelOf_inj t1 m1 t2 m2 :
  handled t1 → handled t2 →
  AddMessage (levelOf t1) m1 = AddMessage (levelOf t2) m2 → t1 = t2 ∧ m1 = m2.
Proof.
  intros [-> | [-> | ->]] [-> | [-> | ->]]; unfold levelOf; simpl; intros [= ]; try done.
Qed.

Lemma sent_once_nothing (recorded : gset string) : sent_once (mkConsoleState recorded []).
Proof. split; simpl; [constructor|]. intros e He. by apply elem_of_nil in He. Qed.

Lemma resolveConsoleOnce_sent_once type message st :
  sent_once st → sent_once (resolveConsoleOnce type message st).
Proof.
  intros [Hnd Hkeys]. rewrite resolveConsoleOnce_cases. case_decide as Hin; [done|].
  destruct (handled_dec type) as [Hh|Hn].
  - destruct (resolveConsole_handled type message (consoleOut st) Hh) as (e & -> & Hne & He).
    pose proof (eventKey_AddMessage type message Hh) as Ha.
    split; simpl.
    + apply NoDup_app. split; [done|]. split.
      * intros x Hx Hx'. apply Hin.
        apply elem_of_cons in Hx' as [->|Hx'].
        { rewrite <- Ha. by apply Hkeys. }
        apply list_elem_of_singleton in Hx' as ->. rewrite <- He. by apply Hkeys.
      * apply NoDup_cons. split; [|apply NoDup_singleton].
        intros Hx. apply list_elem_of_singleton in Hx. congruence.
    + intros x Hx. apply elem_of_app in Hx as [Hx|Hx].
      * apply once_set_mono. by apply Hkeys.
      * apply elem_of_cons in Hx as [->|Hx].
        { rewrite Ha. by apply handled_key_stored. }
        apply list_elem_of_singleton in Hx as ->. rewrite He. by apply handled_key_stored.
  - rewrite resolveConsole_unhandled by done. split; simpl; [done|].
    intros x Hx. apply once_set_mono. by apply Hkeys.
Qed.

Lemma onceCalls_sent_once calls st : sent_once st → sent_once (onceCalls calls st).
Proof.
  revert st. induction calls as [|c calls IH]; intros st Hst; [done|].
  apply IH. by apply resolveConsoleOnce_sent_once.
Qed.

Lemma resolveConsoleOnce_memo_exact type message st :
  handled type → memo_exact st →
  memo_exact (resolveConsoleOnce type message st) ∧
  (∀ t m, handled t →
     AddMessage (levelOf t) m ∈ consoleOut (resolveConsoleOnce type message st) →
     (t = type ∧ m = message) ∨ AddMessage (levelOf t) m ∈ consoleOut st).
Proof.
  intros Hh Hexact. rewrite resolveConsoleOnce_cases. case_decide as Hin.
  - split; [done|]. auto.
  - destruct (resolveConsole_handled type message (consoleOut st) Hh) as (e & -> & Hne & He).
    assert (Hfrom : ∀ t m, handled t →
              AddMessage (levelOf t) m ∈ consoleOut st ++ [AddMessage (levelOf type) message; e] →
              (t = type ∧ m = message) ∨ AddMessage (levelOf t) m ∈ consoleOut st).
    { intros t m Ht Hx. apply elem_of_app in Hx as [Hx|Hx]; [by right|].
      left. apply elem_of_cons in Hx as [Hx|Hx].
      - by apply (AddMessage_levelOf_inj _ _ _ _ Ht Hh).
      - apply list_elem_of_singleton in Hx. subst e.
        rewrite (eventKey_AddMessage t m Ht) in He.
        by apply (handled_key_inj _ _ _ _ Ht Hh) in He. }
    simpl. split; [|exact Hfrom].
    intros t m Ht. simpl. split.
    + intros Hk. apply once_set_elem in Hk as [Hk|Hk].
      * apply (handled_key_inj _ _ _ _ Ht Hh) in Hk as [-> ->].
        apply elem_of_app. right. apply elem_of_cons. by left.
      * apply elem_of_app. left. by apply Hexact.
    + intros Hx. destruct (Hfrom t m Ht Hx) as [[-> ->]|Hold].
      * by apply handled_key_stored.
      * apply once_set_mono. by apply Hexact.
Qed.

Lemma onceCalls_exact calls st :
  Forall (λ c, handled c.1) calls → memo_exact st →
  ∀ type message, handled type →
    (AddMessage (levelOf type) message ∈ consoleOut (onceCalls calls st) ↔
     (type, message) ∈ calls ∨ AddMessage (levelOf type) message ∈ consoleOut st).
Proof.
  intros Hcalls. revert st.
  induction Hcalls as [|[t m] calls Ht _ IH]; intros st Hst type message Hh.
  - simpl. rewrite elem_of_nil. tauto.
  - cbn [onceCalls fold_left]. simpl in Ht.
    destruct (resolveConsoleOnce_memo_exact t m st Ht Hst) as (Hst' & Hfrom).
    fold (onceCalls calls (resolveConsoleOnce t m st)).
    rewrite (IH _ Hst' type message Hh). rewrite elem_of_cons. split.
    + intros [Hc|Hx]; [tauto|]. destruct (Hfrom _ _ Hh Hx) as [[-> ->]|Hold]; auto.
    + intros [[[= -> ->]|Hc]|Hold]; auto; right.
      * apply Hst'; [done|]. rewrite resolveConsoleOnce_cases. case_decide; [done|].
        simpl. by apply handled_key_stored.
      * rewrite resolveConsoleOnce_cases. case_decide; [done|].
        destruct (resolveConsole_handled t m (consoleOut st) Ht) as (e & -> & _).
        simpl. apply elem_of_app. by left.
Qed.

(** A message sent through [resolveConsoleOnce] on some of several
    occasions goes out on the first of them only. *)
Lemma once_fold {X} (call : X → bool) type message (xs : list X) st :
  handled type →
  type +:+ message ∉ once st →
  consoleOut (fold_left (λ st x, if call x then resolveConsoleOnce type message st else st) xs st) =
  consoleOut st ++ (if existsb call xs then resolveConsole type message [] else []).
Proof.
  intros Hh.
  assert (Hafter : ∀ xs st, type +:+ message ∈ once st →
            fold_left (λ st x, if call x then resolveConsoleOnce type message st else st) xs st = st).
  { clear xs st. induction xs as [|x xs IH]; intros st Hin; [done|]. cbn [fold_left].
    assert ((if call x then resolveConsoleOnce type message st else st) = st) as ->; [|by apply IH].
    destruct (call x); [|done]. rewrite resolveConsoleOnce_cases. by case_decide. }
  revert st. induction xs as [|x xs IH]; intros st Hout; cbn [fold_left existsb].
  - by rewrite app_nil_r.
  - destruct (call x); simpl; [|by apply IH].
    rewrite Hafter.
    + rewrite resolveConsoleOnce_cases. case_decide; [done|]. simpl.
      apply resolveConsole_app.
    + rewrite resolveConsoleOnce_cases. case_decide; [done|]. simpl.
      by apply handled_key_stored.
Qed.

(** X9.  Through [resolveConsoleOnce] nothing is sent twice: whatever the
    memo held at the start, the events that any sequence of calls sends to
    the console tab and to the browser console are pairwise distinct. *)
Theorem resolveConsoleOnce_sends_nothing_twice calls (recorded : gset string) :
  NoDup (consoleOut (onceCalls calls (mkConsoleState recorded []))).
Proof. apply onceCalls_sent_once, sent_once_nothing. Qed.

(** X10.  From a new inspector and with the types [log], [warn] and
    [error], a message is shown in the console tab, once, exactly when
    [resolveConsoleOnce] was called with it: repeated calls add nothing and
    no call is lost. *)
Theorem resolveConsoleOnce_sends_each_call_once calls type message :
  Forall (λ c, handled c.1) calls → handled type →
  NoDup (consoleOut (onceCalls calls newConsole)) ∧
  (AddMessage (levelOf type) message ∈ consoleOut (onceCalls calls newConsole) ↔
   (type, message) ∈ calls).
Proof.
  intros Hcalls Hh. split.
  - apply onceCalls_sent_once, sent_once_nothing.
  - assert (memo_exact newConsole) as Hmemo.
    { intros t m _. simpl. rewrite elem_of_nil. split; [|done].
      intros Hx. by apply elem_of_empty in Hx. }
    rewrite (onceCalls_exact calls newConsole Hcalls Hmemo type message Hh).
    simpl. rewrite elem_of_nil. tauto.
Qed.

(** X11.  The memo key is the plain concatenation [type + message]: once
    a call was made, any call whose type and message concatenate to the
    same string does nothing, also when it splits the string differently
    (one of the two types being [log], [warn] or [error]). *)
Theorem resolveConsoleOnce_key_is_concatenation t1 m1 t2 m2 st :
  handled t1 ∨ handled t2 →
  t1 +:+ m1 = t2 +:+ m2 →
  resolveConsoleOnce t2 m2 (resolveConsoleOnce t1 m1 st) = resolveConsoleOnce t1 m1 st.
Proof.
  intros Hh Heq.
  assert (t1 +:+ m1 ∈ once (resolveConsoleOnce t1 m1 st)) as Hin.
  { rewrite resolveConsoleOnce_cases. case_decide; [done|]. simpl.
    destruct Hh as [Hh|Hh]; [by apply handled_key_stored|].
    rewrite Heq. by apply handled_key_stored. }
  rewrite (resolveConsoleOnce_cases t2 m2). rewrite <- Heq. by case_decide.
Qed.

(** X12.  The tip of [computeAsync] is given once in the life of an
    inspector: over any sequence of calls, it is sent (to the console tab
    at level info, and to [console.log]) if one of the calls found the
    renderer past frame 1 with an animation loop set, and then once;
    nothing else is sent. *)
Theorem computeAsync_tip_once (renderers : list Renderer) :
  consoleOut (fold_left (λ st renderer, computeAsync renderer st) renderers newConsole) =
  if existsb loopActive renderers
  then [AddMessage "info" tipMessage; ConsoleLog tipMessage]
  else [].
Proof.
  change (fold_left (λ st renderer, computeAsync renderer st) renderers newConsole)
    with (fold_left (λ st renderer, if loopActive renderer
                                    then resolveConsoleOnce "log" tipMessage st else st)
            renderers newConsole).
  rewrite (once_fold loopActive "log" tipMessage renderers newConsole).
  - done.
  - by left.
  - simpl. apply not_elem_of_empty.
Qed.

End ConsoleLemmas.

(** ** The viewer tab, proofs *)

Section ViewerTabLemmas.
Context {A : Type}.
Variable splitCamelCase : string → string.
Variable splitPath : string → list string * string.
Variable env : ViewerEnv (A:=A).
Abbreviation get := (getCanvasDataByNode splitCamelCase splitPath env).
Abbreviation step := (viewer_step splitCamelCase splitPath env).
Abbreviation mapGet := (mapGetCanvasData splitCamelCase splitPath env).
Abbreviation resolveViewerAt := (resolveViewer splitCamelCase splitPath env).
Implicit Types (st vst : ViewerState (A:=A)) (node : NodeObj) (cd : CanvasData (A:=A)).
Implicit Types (nodes : list NodeObj) (cst : ConsoleState).
Open Scope string_scope.
Open Scope list_scope.

Lemma mapGet_cons node nodes st :
  mapGet (node :: nodes) st =
  (fst (get node st) :: fst (mapGet nodes (snd (get node st))),
   snd (mapGet nodes (snd (get node st)))).
Proof.
  cbn [mapGetCanvasData]. destruct (get node st) as [cd st1]. cbn [fst snd].
  by destruct (mapGet nodes st1).
Qed.

Lemma mapGet_steps nodes st : rtc step st (snd (mapGet nodes st)).
Proof.
  revert st. induction nodes as [|node nodes IH]; intros st; [done|].
  rewrite mapGet_cons. cbn [snd]. eapply rtc_l; [apply step_get|apply IH].
Qed.

(** Every node gets the bundle cached under it. *)
Lemma mapGet_bundles nodes st :
  Forall2 (λ node cd, canvasNodes (snd (mapGet nodes st)) !! node_ref node = Some cd)
          nodes (fst (mapGet nodes st)).
Proof.
  revert st. induction nodes as [|node nodes IH]; intros st; [constructor|].
  rewrite mapGet_cons. cbn [fst snd]. constructor; [|apply IH].
  eapply steps_keep; [apply mapGet_steps|apply get_cached].
Qed.

(** When every node is cached, the bundles are read and nothing changes. *)
Lemma mapGet_hits nodes st l :
  Forall2 (λ node cd, canvasNodes st !! node_ref node = Some cd) nodes l →
  mapGet nodes st = (l, st).
Proof.
  induction 1 as [|node cd nodes l Hhit _ IH]; [done|].
  rewrite mapGet_cons, (get_hit splitCamelCase splitPath env _ _ _ Hhit).
  cbn [fst snd]. by rewrite IH.
Qed.

(** One call: the node is a key of the cache afterwards, and no other
    key is added. *)
Lemma get_dom node st r :
  r ∈ dom (canvasNodes (snd (get node st))) ↔ r = node_ref node ∨ r ∈ dom (canvasNodes st).
Proof.
  destruct (canvasNodes st !! node_ref node) as [cd|] eqn:Hlook.
  - rewrite (get_hit splitCamelCase splitPath env _ _ _ Hlook). cbn [snd].
    split; [by right|]. intros [->|Hr]; [|done]. by apply elem_of_dom_2 in Hlook.
  - destruct (get_miss splitCamelCase splitPath env _ _ Hlook) as (cd & -> & _).
    cbn [snd canvasNodes].
    rewrite dom_insert, elem_of_union, elem_of_singleton. done.
Qed.

Lemma mapGet_dom nodes st r :
  r ∈ dom (canvasNodes (snd (mapGet nodes st))) ↔
  r ∈ map node_ref nodes ∨ r ∈ dom (canvasNodes st).
Proof.
  revert st. induction nodes as [|node nodes IH]; intros st.
  - simpl. rewrite elem_of_nil. tauto.
  - rewrite mapGet_cons. cbn [snd map]. rewrite IH, get_dom, elem_of_cons. tauto.
Qed.

(** [resolveViewer] with nodes to show on a WebGPU backend. *)
Lemma resolveViewer_webgpu renderer nodes visible vst cst :
  isWebGPUBackend renderer = true → nodes ≠ [] →
  resolveViewerAt renderer nodes visible vst cst =
  (snd (mapGet nodes vst), cst,
   (if visible then [] else [ViewerShow]) ++ [ViewerUpdate (fst (mapGet nodes vst))]).
Proof.
  intros Hgpu Hne. unfold resolveViewer. rewrite Hgpu. cbv zeta.
  destruct nodes as [|node nodes]; [done|].
  cbn [length Nat.eqb negb]. destruct (mapGet _ _). by destruct visible.
Qed.

(** X13.  On a WebGPU backend with nodes to show, [resolveViewer] shows
    the viewer tab if it is hidden and then hands it one bundle per node,
    in the order of the nodes: each bundle shows its node and is the one
    cached under that node afterwards (so a node listed twice gets the
    same bundle twice).  The console is not touched. *)
Theorem resolveViewer_bundles renderer nodes visible vst cst :
  viewer_reachable splitCamelCase splitPath env vst →
  isWebGPUBackend renderer = true → nodes ≠ [] →
  ∃ vst' canvasDataList,
    resolveViewerAt renderer nodes visible vst cst =
      (vst', cst, (if visible then [] else [ViewerShow]) ++ [ViewerUpdate canvasDataList]) ∧
    Forall2 (λ node cd, cd_node cd = node_ref node ∧
                        canvasNodes vst' !! node_ref node = Some cd)
            nodes canvasDataList.
Proof.
  intros Hreach Hgpu Hne. eexists _, _. split; [by apply resolveViewer_webgpu|].
  assert (cache_ok (snd (mapGet nodes vst))) as Hok.
  { apply (reachable_invariant splitCamelCase splitPath env).
    destruct Hreach as [h Hh]. exists h. etrans; [exact Hh|apply mapGet_steps]. }
  eapply Forall2_impl; [apply mapGet_bundles|].
  intros node cd Hcd. split; [|done]. by apply (Hok _ _ Hcd).
Qed.

(** X14.  Previews are built once: after a [resolveViewer], and whatever
    is cached or allocated in between, a [resolveViewer] for the same
    node objects, whatever their ids and names have become, builds no
    bundle: it leaves the cache as it is and hands the viewer the bundles
    of the first call. *)
Theorem resolveViewer_again renderer nodes nodes' visible visible' vst vst'' cst cst'' :
  isWebGPUBackend renderer = true → nodes ≠ [] →
  map node_ref nodes' = map node_ref nodes →
  rtc step (resolveViewerAt renderer nodes visible vst cst).1.1 vst'' →
  ∃ canvasDataList,
    (resolveViewerAt renderer nodes visible vst cst).2 =
      (if visible then [] else [ViewerShow]) ++ [ViewerUpdate canvasDataList] ∧
    (resolveViewerAt renderer nodes' visible' vst'' cst'').2 =
      (if visible' then [] else [ViewerShow]) ++ [ViewerUpdate canvasDataList] ∧
    canvasNodes (resolveViewerAt renderer nodes' visible' vst'' cst'').1.1 = canvasNodes vst''.
Proof.
  intros Hgpu Hne Hrefs.
  assert (nodes' ≠ []) as Hne'.
  { intros ->. destruct nodes; [done|discriminate]. }
  rewrite (resolveViewer_webgpu _ _ _ _ _ Hgpu Hne). cbn [fst snd]. intros Hsteps.
  exists (fst (mapGet nodes vst)). split; [done|].
  rewrite (resolveViewer_webgpu _ _ _ _ _ Hgpu Hne'). cbn [fst snd].
  rewrite (mapGet_hits nodes' vst'' (fst (mapGet nodes vst))); [done|].
  assert (Hb : Forall2 (λ node cd, canvasNodes vst'' !! node_ref node = Some cd)
                 nodes (fst (mapGet nodes vst))).
  { eapply Forall2_impl; [apply mapGet_bundles|].
    intros node cd Hcd. by apply (steps_keep splitCamelCase splitPath env _ _ _ _ Hsteps). }
  revert Hb. generalize (fst (mapGet nodes vst)). clear Hne Hne' Hsteps.
  revert nodes Hrefs. induction nodes' as [|n' nodes' IH]; intros [|n nodes] Hrefs l Hb;
    try discriminate.
  - inversion Hb. constructor.
  - inversion Hb as [|? cd ? l' Hn Hrest]. subst. injection Hrefs as Hr Hrefs.
    constructor; [by rewrite Hr|]. by apply (IH nodes).
Qed.

(** X15.  On a backend other than WebGPU the viewer is left alone, frame
    after frame: no bundle is created, no call reaches the viewer tab, and
    the warning is sent once, on the first frame that has nodes to show;
    without such a frame nothing is sent. *)
Theorem resolveViewer_without_webgpu renderer (frames : list (list NodeObj * bool)) vst :
  isWebGPUBackend renderer = false →
  ∃ cst',
    resolveViewerFrames splitCamelCase splitPath env renderer frames vst newConsole =
      (vst, cst', []) ∧
    consoleOut cst' =
      if existsb (λ frame, negb (length frame.1 =? 0)%nat) frames
      then [AddMessage "warn" viewerWarning; ConsoleWarn viewerWarning]
      else [].
Proof.
  intros Hgpu.
  assert (Hrun : ∀ frames cst (calls : list (ViewerCall (A:=A))),
            fold_left
              (λ acc frame,
                 let '(vst, cst, calls) := acc in
                 let '(vst, cst, more) :=
                   resolveViewerAt renderer frame.1 frame.2 vst cst in
                 (vst, cst, calls ++ more))
              frames (vst, cst, calls) =
            (vst,
             fold_left (λ cst (frame : list NodeObj * bool),
                          if negb (length frame.1 =? 0)%nat
                          then resolveConsoleOnce "warn" viewerWarning cst else cst)
               frames cst,
             calls)).
  { clear frames. induction frames as [|[nodes visible] frames IH]; intros cst calls; [done|].
    cbn [fold_left fst snd]. unfold resolveViewer at 2. rewrite Hgpu. cbv zeta.
    destruct (length nodes =? 0)%nat; cbn [negb]; rewrite app_nil_r; apply IH. }
  eexists. split; [apply Hrun|].
  rewrite (once_fold (λ frame : list NodeObj * bool, negb (length frame.1 =? 0)%nat)
             "warn" viewerWarning frames newConsole).
  - done.
  - right. by left.
  - simpl. apply not_elem_of_empty.
Qed.

(** X16.  On WebGPU [resolveViewer] caches exactly the nodes it shows and
    rebuilds nothing: the keys of the cache afterwards are those it had
    and the nodes shown, and every bundle cached before is still the one
    cached under its node. *)
Theorem resolveViewer_caches_the_nodes_shown renderer nodes visible vst cst :
  isWebGPUBackend renderer = true →
  (∀ r, r ∈ dom (canvasNodes (resolveViewerAt renderer nodes visible vst cst).1.1) ↔
        r ∈ map node_ref nodes ∨ r ∈ dom (canvasNodes vst)) ∧
  (∀ r cd, canvasNodes vst !! r = Some cd →
           canvasNodes (resolveViewerAt renderer nodes visible vst cst).1.1 !! r = Some cd).
Proof.
  intros Hgpu. destruct nodes as [|node nodes].
  - unfold resolveViewer. simpl. split; [|done]. intros r. rewrite elem_of_nil. tauto.
  - rewrite resolveViewer_webgpu by done. cbn [fst]. split; [apply mapGet_dom|].
    intros r cd Hcd.
    by apply (steps_keep splitCamelCase splitPath env _ _ _ _ (mapGet_steps _ vst)).
Qed.

End ViewerTabLemmas.

(** ** More on frames *)

Section FrameMore.
Context {A : Type} `{JsNumber A}.
Context {K : Type} `{Countable K}.
Variable easeFraction : A → A → A.
Implicit Types (st : gmap K (StatEntry (A:=A))) (s : SampleNode (A:=A) (K:=K)).
Implicit Types (f frame next : Frame (A:=A) (K:=K)) (this : Inspector (A:=A) (K:=K)).
Implicit Types (cs : list (SampleNode (A:=A) (K:=K))).

(** The loop writes the three totals of the frame and nothing else of it. *)
Lemma fold_addStats_reads cs f st :
  frameId (fst (fold_left addStats cs (f, st))) = frameId f ∧
  startTime (fst (fold_left addStats cs (f, st))) = startTime f ∧
  frame_children (fst (fold_left addStats cs (f, st))) = frame_children f.
Proof.
  revert f st. induction cs as [|s cs IH]; intros f st; cbn [fold_left]; [done|].
  rewrite addStats_eq. destruct (IH (set_frame_total
    (val_add (frame_total f) (field data_total (cid s) (resolveStats s st)))
    (set_frame_gpu (val_add (frame_gpu f) (field data_gpu (cid s) (resolveStats s st)))
       (set_frame_cpu (val_add (frame_cpu f) (field data_cpu (cid s) (resolveStats s st))) f)))
    (resolveStats s st)) as (-> & -> & ->). done.
Qed.

(** The loop leaves the entries of other call ids alone and drops none. *)
Lemma fold_addStats_store cs f st k :
  (k ∉ flat_map cids cs → snd (fold_left addStats cs (f, st)) !! k = st !! k) ∧
  (is_Some (st !! k) → is_Some (snd (fold_left addStats cs (f, st)) !! k)).
Proof.
  revert f st. induction cs as [|s cs IH]; intros f st; cbn [fold_left flat_map]; [done|].
  rewrite addStats_eq. split.
  - intros Hk. rewrite elem_of_app in Hk.
    rewrite (proj1 (IH _ _)) by tauto. apply resolveStats_frame. tauto.
  - intros Hk. apply IH. by apply resolveStats_is_Some.
Qed.

(** The totals of the frame after the loop: each top-level sample's sums,
    read right after its visit. *)
Lemma fold_addStats_entries cs f st :
  Forall nestedDistinct cs →
  frameEntry (fst (fold_left addStats cs (f, st))) =
  fold_left (λ d s, addEntry d (entryOf s)) cs (frameEntry f).
Proof.
  intros Hcs. revert f st. induction Hcs as [|s cs Hs _ IH]; intros f st; cbn [fold_left]; [done|].
  pose proof (addStats_frameEntry f st s _ (resolveStats_own s Hs st)) as Hfe.
  rewrite addStats_eq in *. cbn [fst] in Hfe. by rewrite IH, Hfe.
Qed.

(** X17.  [resolveFrame] only reads what identifies a frame: its
    [frameId], its [startTime] and its samples are the same afterwards,
    whether it resolved the frame or returned early. *)
Theorem resolveFrame_reads_the_samples (host : Host) frame this :
  frameId (resolvedFrame easeFraction host frame this) = frameId frame ∧
  startTime (resolvedFrame easeFraction host frame this) = startTime frame ∧
  frame_children (resolvedFrame easeFraction host frame this) = frame_children frame.
Proof.
  unfold resolvedFrame, resolveFrame.
  destruct (getFrameById host (frameId frame + 1)) as [next|]; [|done].
  cbn [frame_children set_frame_total set_frame_gpu set_frame_cpu].
  pose proof (fold_addStats_reads (frame_children frame)
    (set_frame_total (Some num_zero) (set_frame_gpu (Some num_zero)
       (set_frame_cpu (Some num_zero) frame))) (statsData this)) as Hr.
  cbn [frame_children set_frame_total set_frame_gpu set_frame_cpu] in Hr.
  destruct (fold_left addStats _ _) as [f1 st1]. cbn [fst] in Hr.
  destruct Hr as (Hid & Hstart & Hch).
  destruct (val_ltb _ _); destruct f1; cbn in *; done.
Qed.

(** X18.  In any arithmetic, binary64 included: when no sample of the
    frame carries the call id of one of its own descendants, the frame's
    cpu, gpu and total after [resolveFrame] are the sums of its top-level
    samples, each with its subtree, added from 0 in the order of the
    samples.  Top-level samples may share a call id: the frame reads each
    entry right after the visit that wrote it. *)
Theorem resolveFrame_totals (host : Host) frame this next :
  getFrameById host (frameId frame + 1) = Some next →
  Forall nestedDistinct (frame_children frame) →
  frame_cpu (resolvedFrame easeFraction host frame this) =
    Some (fold_left (λ t s, num_add t (treeSum cpu s)) (frame_children frame) num_zero) ∧
  frame_gpu (resolvedFrame easeFraction host frame this) =
    Some (fold_left (λ t s, num_add t (treeSum gpu s)) (frame_children frame) num_zero) ∧
  frame_total (resolvedFrame easeFraction host frame this) =
    Some (fold_left (λ t s, num_add t (treeSum ownTotal s)) (frame_children frame) num_zero).
Proof.
  intros Hnext Hcs.
  destruct (resolveFrame_present easeFraction host frame this next Hnext)
    as (-> & -> & -> & _).
  pose proof (fold_addStats_entries (frame_children frame)
    (set_frame_total (Some num_zero) (set_frame_gpu (Some num_zero)
       (set_frame_cpu (Some num_zero) frame))) (statsData this) Hcs) as He.
  fold (aggregateFrame frame (statsData this)) in He.
  unfold frameEntry at 2 in He. cbn in He. rewrite fold_addEntry_entryOf in He.
  unfold frameEntry in He. by injection He as -> -> ->.
Qed.

(** X19.  Statistics persist across frames: [resolveFrame] leaves the
    entry of every call id that does not occur in the frame's samples as
    it was, and removes no entry. *)
Theorem resolveFrame_keeps_other_stats (host : Host) frame this k :
  (k ∉ flat_map cids (frame_children frame) →
   statsData (resolvedInspector easeFraction host frame this) !! k = statsData this !! k) ∧
  (is_Some (statsData this !! k) →
   is_Some (statsData (resolvedInspector easeFraction host frame this) !! k)).
Proof.
  destruct (getFrameById host (frameId frame + 1)) as [next|] eqn:Hnext.
  - destruct (resolveFrame_present easeFraction host frame this next Hnext)
      as (_ & _ & _ & _ & _ & -> & _).
    apply fold_addStats_store.
  - unfold resolvedInspector. by rewrite resolveFrame_absent.
Qed.

(** X20.  The two timers stay within their periods: in every state the
    inspector reaches, the durations are those of the constructor (.25
    and .05) and the time of each display cycle is below its duration,
    however large the deltas were.  (In ordered arithmetic, where .25 and
    .05 are above 0.) *)
Theorem displayCycle_time_below_duration `{!OrderedNumber A} this :
  num_ltb num_zero (lit_0_25 (A:=A)) = true →
  num_ltb num_zero (lit_0_05 (A:=A)) = true →
  inspector_reachable (K:=K) easeFraction this →
  duration (displayCycle_text this) = lit_0_25 ∧
  duration (displayCycle_graph this) = lit_0_05 ∧
  num_ltb (time (displayCycle_text this)) (duration (displayCycle_text this)) = true ∧
  num_ltb (time (displayCycle_graph this)) (duration (displayCycle_graph this)) = true.
Proof.
  intros H25 H05.
  assert (Hstep : ∀ (c : Cycle (A:=A)) delta,
            num_ltb num_zero (duration c) = true →
            duration (set_needsUpdate false (updateCycle delta c)) = duration c ∧
            num_ltb (time (set_needsUpdate false (updateCycle delta c))) (duration c) = true).
  { intros c delta Hd. rewrite updateCycle_cases.
    destruct (num_geb _ _) eqn:Hge; simpl; [done|].
    by rewrite num_ltb_geb, Hge. }
  induction 1 as [|host frame this _ IH|stats this _ IH|k this _ IH]; try done.
  destruct IH as (Ht & Hg & Htt & Hgt).
  destruct (getFrameById host (frameId frame + 1)) as [next|] eqn:Hnext.
  - destruct (resolveFrame_present easeFraction host frame this next Hnext)
      as (_ & _ & _ & _ & _ & _ & _ & _ & -> & ->).
    destruct (Hstep (displayCycle_text this) (nodeFrame_deltaTime host)) as [-> ->];
      [by rewrite Ht|].
    destruct (Hstep (displayCycle_graph this) (nodeFrame_deltaTime host)) as [-> ->];
      [by rewrite Hg|]. done.
  - unfold resolvedInspector. by rewrite resolveFrame_absent.
Qed.

End FrameMore.

(** ** Mounting the overlay, proofs *)

Section InitLemmas.
Variable REVISION : string.

(** X22.  [init] mounts the overlay at most once and never moves it: the
    canvas stays where it is; an overlay that has a parent element keeps
    it; a detached overlay gets the parent element of the canvas (and
    stays detached while the canvas is); and a second [init], whatever
    the backend then, changes nothing more in the document. *)
Theorem init_mounts_once (renderer renderer' : Renderer) (dom : Dom) (cst : ConsoleState) :
  canvas_parentElement (init REVISION renderer dom cst).1 = canvas_parentElement dom ∧
  (is_Some (inspector_parentElement dom) →
   inspector_parentElement (init REVISION renderer dom cst).1 = inspector_parentElement dom) ∧
  (inspector_parentElement dom = None →
   inspector_parentElement (init REVISION renderer dom cst).1 = canvas_parentElement dom) ∧
  (init REVISION renderer' (init REVISION renderer dom cst).1
        (init REVISION renderer dom cst).2).1 = (init REVISION renderer dom cst).1.
Proof.
  unfold init. simpl.
  destruct dom as [[i|] [c|]]; simpl; repeat split; try done; by intros [? [=]].
Qed.

End InitLemmas.

(** ** The scenarios of the specification, in binary64 *)

Section Scenarios.
Open Scope string_scope.

(** Frame A starts at 0 with one sample (cpu 2, gpu 3) and frame B starts
    at 20: total 5, deltaTime 20, miscellaneous 15, and the smoothed delta
    starts at 20. *)
Example scenario_resolved :
  let frame := frameOne [Sample "a" 2%float 3%float []] in
  frame_total (resolvedFrame easeByFactor (hostTwo 0.1%float) frame newInspector) = Some 5%float ∧
  frame_deltaTime (resolvedFrame easeByFactor (hostTwo 0.1%float) frame newInspector) = Some 20%float ∧
  frame_miscellaneous (resolvedFrame easeByFactor (hostTwo 0.1%float) frame newInspector) = Some 15%float ∧
  softDeltaTime (resolvedInspector easeByFactor (hostTwo 0.1%float) frame newInspector) = Some 20%float.
Proof. repeat split; vm_compute; reflexivity. Qed.

(** The same with cpu 15 and gpu 10: the total 25 exceeds the delta 20 and
    miscellaneous is 0. *)
Example scenario_clamped :
  let frame := frameOne [Sample "a" 15%float 10%float []] in
  frame_total (resolvedFrame easeByFactor (hostTwo 0.1%float) frame newInspector) = Some 25%float ∧
  frame_miscellaneous (resolvedFrame easeByFactor (hostTwo 0.1%float) frame newInspector) = Some 0%float.
Proof. repeat split; vm_compute; reflexivity. Qed.

(** In binary64 [miscellaneous] is never negative, for any frame, any
    samples and any state of the inspector. *)
Example miscellaneous_not_negative_binary64
    (easeFraction : float → float → float) (host : Host (A:=float) (K:=string))
    (frame next : Frame) (this : Inspector) :
  getFrameById host (frameId frame + 1) = Some next →
  val_ltb (frame_miscellaneous (resolvedFrame easeFraction host frame this))
          (Some 0%float) = false.
Proof.
  intros Hnext.
  exact (miscellaneous_never_negative easeFraction host frame this next
           eq_refl Hnext).
Qed.

(** The text cycle (duration .25) advanced by 0.1 three times fires at the
    third call and is back at 0. *)
Example scenario_text_cycle :
  let c0 := displayCycle_text (newInspector (A:=float) (K:=string)) in
  let c1 := snd (advance 0.1%float c0) in
  let c2 := snd (advance 0.1%float c1) in
  fst (advance 0.1%float c0) = false ∧
  fst (advance 0.1%float c1) = false ∧
  fst (advance 0.1%float c2) = true ∧
  time (snd (advance 0.1%float c2)) = 0%float.
Proof. repeat split; vm_compute; reflexivity. Qed.

(** Advanced by 0.1, 0.1 and 0.05, which add up to .25 in binary64, it
    fires once and is back at 0. *)
Example scenario_text_cycle_exact :
  runCycle [0.1%float; 0.1%float; 0.05%float]
    (displayCycle_text (newInspector (A:=float) (K:=string))) =
  (1%nat, mkCycle false 0.25%float 0%float).
Proof. vm_compute. reflexivity. Qed.

End Scenarios.

(** ** Counterexamples to the claims as first stated *)

Section Counterexamples.
Open Scope string_scope.

(** C1 as stated fails in three ways.  In the chain A > B > C the total
    recorded for A is 3, while its own total plus the totals recorded for
    all its descendants is 4.  When a child carries its parent's call id
    the entry is written through both references: 2 is recorded where the
    parent's own total plus its child's is 7.  And in binary64 the order of
    two siblings changes the last digit of the parent's total. *)
Lemma tree_sum_counterexample :
  (field data_total "A" (resolveStats chainABC ∅) = Some 3%float ∧
   totalOverDescendants (resolveStats chainABC ∅) chainABC = Some 4%float) ∧
  (field data_total "A" (resolveStats nestedAA ∅) = Some 2%float ∧
   totalOverChildren (resolveStats nestedAA ∅) nestedAA = Some 7%float) ∧
  (reorder siblingsXY siblingsYX ∧
   field data_total "R" (resolveStats siblingsXY ∅) = Some 0.6000000000000001%float ∧
   field data_total "R" (resolveStats siblingsYX ∅) = Some 0.6%float ∧
   val_ltb (field data_total "R" (resolveStats siblingsYX ∅))
           (field data_total "R" (resolveStats siblingsXY ∅)) = true).
Proof.
  repeat split; try (vm_compute; reflexivity).
  apply reorder_siblings. apply perm_swap.
Qed.

(** C2 as stated fails in binary64: for one sample (cpu 0.1, gpu 0.1) with
    one child (cpu 0.2, gpu 0.3) the total is 0.7 and cpu + gpu is
    0.7000000000000001, in the sample's entry and in the frame. *)
Lemma total_consistent_counterexample :
  (field data_total "r" (statsData (resolvedInspector easeByFactor (hostTwo 0.1%float) tenthsFrame newInspector))
     = Some 0.7%float ∧
   val_add (field data_cpu "r" (statsData (resolvedInspector easeByFactor (hostTwo 0.1%float) tenthsFrame newInspector)))
           (field data_gpu "r" (statsData (resolvedInspector easeByFactor (hostTwo 0.1%float) tenthsFrame newInspector)))
     = Some 0.7000000000000001%float) ∧
  (frame_total (resolvedFrame easeByFactor (hostTwo 0.1%float) tenthsFrame newInspector) = Some 0.7%float ∧
   val_add (frame_cpu (resolvedFrame easeByFactor (hostTwo 0.1%float) tenthsFrame newInspector))
           (frame_gpu (resolvedFrame easeByFactor (hostTwo 0.1%float) tenthsFrame newInspector))
     = Some 0.7000000000000001%float ∧
   val_eqb (frame_total (resolvedFrame easeByFactor (hostTwo 0.1%float) tenthsFrame newInspector))
           (val_add (frame_cpu (resolvedFrame easeByFactor (hostTwo 0.1%float) tenthsFrame newInspector))
                    (frame_gpu (resolvedFrame easeByFactor (hostTwo 0.1%float) tenthsFrame newInspector)))
     = false).
Proof. repeat split; vm_compute; reflexivity. Qed.

(** C5 as stated fails: of two siblings with call id A (cpu 1, gpu 2 and
    cpu 10, gpu 20) the entry under A keeps the second alone, total 30
    rather than the combined 33; the parent has both. *)
Lemma shared_cid_counterexample :
  field data_cpu "A" (resolveStats sharedAA ∅) = Some 10%float ∧
  field data_gpu "A" (resolveStats sharedAA ∅) = Some 20%float ∧
  field data_total "A" (resolveStats sharedAA ∅) = Some 30%float ∧
  val_ltb (field data_total "A" (resolveStats sharedAA ∅)) (Some 33%float) = true ∧
  field data_total "R" (resolveStats sharedAA ∅) = Some 34%float.
Proof. repeat split; vm_compute; reflexivity. Qed.


(** C3 as first stated: two samples that overflow to infinities of
    opposite sign make the total [NaN], and [miscellaneous] with it:
    [miscellaneous >= 0] is false. *)
Lemma miscellaneous_counterexample :
  getFrameById (hostTwo 0.1%float) (frameId frameOverflow + 1) = Some frameTwo ∧
  (∃ m, frame_miscellaneous
          (resolvedFrame easeByFactor (hostTwo 0.1%float) frameOverflow newInspector) = Some m ∧
        Prim2SF m = S754_nan) ∧
  val_geb (frame_miscellaneous
             (resolvedFrame easeByFactor (hostTwo 0.1%float) frameOverflow newInspector))
          (Some num_zero) = false.
Proof.
  split; [reflexivity|]. split; [|vm_compute; reflexivity].
  eexists. split; [vm_compute; reflexivity|]. vm_compute. reflexivity.
Qed.

(** C4 as first stated.  The deltas 0.013 and 0.037 add up to .05 as
    decimals, and in binary64 to 0.049999999999999996: the graph cycle
    does not fire.  Elapsed times whose sum without rounding is exactly
    .25 leave the text cycle silent, and elapsed times whose sum without
    rounding is below .25 fire it. *)
Lemma cadence_counterexample :
  sumFrom (Q2Qc 0) [Q2Qc 0.013; Q2Qc 0.037] = lit_0_05 ∧
  fst (runCycle [0.013%float; 0.037%float]
         (displayCycle_graph (newInspector (A:=float) (K:=string)))) = 0%nat ∧
  Forall elapsed deltasQuarter ∧
  Qeq_bool (exactSum deltasQuarter) (exactValue 0.25%float) = true ∧
  fst (runCycle deltasQuarter
         (displayCycle_text (newInspector (A:=float) (K:=string)))) = 0%nat ∧
  Forall elapsed deltasBelowQuarter ∧
  Qle_bool (exactValue 0.25%float) (exactSum deltasBelowQuarter) = false ∧
  fst (runCycle deltasBelowQuarter
         (displayCycle_text (newInspector (A:=float) (K:=string)))) = 1%nat.
Proof.
  split; [apply Qc_is_canon; vm_compute; reflexivity|].
  split; [vm_compute; reflexivity|].
  split.
  { unfold deltasQuarter.
    repeat (apply List.Forall_cons; [vm_compute; reflexivity|]). apply List.Forall_nil. }
  split; [vm_compute; reflexivity|]. split; [vm_compute; reflexivity|].
  split.
  { unfold deltasBelowQuarter.
    repeat (apply List.Forall_cons; [vm_compute; reflexivity|]). apply List.Forall_nil. }
  split; vm_compute; reflexivity.
Qed.


End Counterexamples.

(** ** The theorems at concrete inputs *)

Section Witnesses.
Open Scope string_scope.

(** C1 on a tree of four nodes with exact rationals. *)
Lemma resolveStats_tree_sum_witness :
  NoDup (cids treeQc) ∧
  ((∀ n, n ∈ nodes treeQc →
      field data_total (cid n) (resolveStats treeQc ∅) =
        totalOverChildren (resolveStats treeQc ∅) n ∧
      field data_total (cid n) (resolveStats treeQc ∅) =
        Some (sumFrom (ownTotal n) (map ownTotal (descendants n)))) ∧
   (∀ s', reorder treeQc s' → resolveStats s' ∅ = resolveStats treeQc ∅)).
Proof.
  assert (Hnd : NoDup (cids treeQc)).
  { apply (bool_decide_unpack _). vm_compute. reflexivity. }
  split; [exact Hnd|]. exact (resolveStats_tree_sum treeQc ∅ Hnd).
Defined.

(** C2 on a frame holding that tree, with exact rationals. *)
Lemma resolveFrame_total_consistent_witness :
  getFrameById hostQc (frameId frameQc + 1) = Some nextQc ∧
  ((∀ k, k ∈ flat_map cids (frame_children frameQc) →
      entryAt consistent
        (statsData (resolvedInspector easeByFactor hostQc frameQc newInspector)) k) ∧
   consistent (frameEntry (resolvedFrame easeByFactor hostQc frameQc newInspector))).
Proof.
  split; [reflexivity|].
  apply (resolveFrame_total_consistent easeByFactor hostQc frameQc newInspector nextQc).
  reflexivity.
Defined.

(** C3 on a frame of 25 ms of samples within 20 ms, in binary64. *)
Lemma resolveFrame_miscellaneous_witness :
  getFrameById (hostTwo 0.1%float) (frameId frameBusy + 1) = Some frameTwo ∧
  frame_deltaTime (resolvedFrame easeByFactor (hostTwo 0.1%float) frameBusy newInspector) =
    Some (startTime frameTwo - startTime frameBusy)%float ∧
  ∃ total m,
    frame_total (resolvedFrame easeByFactor (hostTwo 0.1%float) frameBusy newInspector)
      = Some total ∧
    frame_miscellaneous (resolvedFrame easeByFactor (hostTwo 0.1%float) frameBusy newInspector)
      = Some m ∧
    m = (if (startTime frameTwo - startTime frameBusy - total <? 0)%float
         then 0%float else (startTime frameTwo - startTime frameBusy - total)%float) ∧
    (m <? 0)%float = false ∧
    (Prim2SF m = S754_nan ∨ (0 <=? m)%float = true) ∧
    (Prim2SF m = S754_nan ↔
     Prim2SF (startTime frameTwo - startTime frameBusy - total)%float = S754_nan) ∧
    ((startTime frameTwo - startTime frameBusy <? total)%float = true → m = 0%float).
Proof.
  split; [reflexivity|].
  exact (resolveFrame_miscellaneous easeByFactor (hostTwo 0.1%float) frameBusy newInspector
           frameTwo eq_refl).
Defined.

(** C4 on the text cycle as constructed, in binary64: advanced by 0.1
    three times, it fires at the third. *)
Lemma updateCycle_cadence_witness :
  needsUpdate (displayCycle_text (newInspector (A:=float) (K:=string))) = false ∧
  runCycle ([0.1%float; 0.1%float] ++ [0.1%float])%list
    (displayCycle_text (newInspector (A:=float) (K:=string))) =
  (1%nat, mkCycle false 0.25%float 0%float).
Proof.
  split; [reflexivity|].
  destruct (updateCycle_cadence (displayCycle_text (newInspector (A:=float) (K:=string)))
              eq_refl) as (_ & _ & Hrun & _).
  destruct (Hrun [0.1%float; 0.1%float]) as [_ Hfire].
  - intros n Hn. destruct n as [|[|[|n]]]; simpl in Hn; try lia; vm_compute; reflexivity.
  - apply Hfire. vm_compute. reflexivity.
Defined.

(** C5 on two siblings with the same call id, in binary64. *)
Lemma resolveStats_last_visit_wins_witness :
  nestedDistinct sharedAA ∧
  resolveStats sharedAA ∅ !! "A" = Some (entryOf (Sample "A" 10%float 20%float [])) ∧
  resolveStats sharedAA ∅ !! "R" = Some (entryOf sharedAA).
Proof.
  assert (Hnd : nestedDistinct sharedAA).
  { repeat split; intros Hin;
      repeat (apply elem_of_cons in Hin as [Hin|Hin]; [discriminate|]);
      by apply elem_of_nil in Hin. }
  split; [exact Hnd|].
  exact (resolveStats_last_visit_wins "R" 1%float 0%float
           [Sample "A" 1%float 2%float []] (Sample "A" 10%float 20%float []) ∅ Hnd).
Defined.



(** C8 on the first node cached: asked again under another id and name, the
    same bundle comes back and nothing changes. *)
Lemma getCanvasDataByNode_cached_witness :
  viewer_reachable splitCamelCaseEx splitPathEx envEx viewerInit ∧
  getCanvasDataByNode splitCamelCaseEx splitPathEx envEx
    (mkNodeObj (node_ref nodeEx) 43%Z (Some "renamed"))
    (snd (getCanvasDataByNode splitCamelCaseEx splitPathEx envEx nodeEx viewerInit)) =
  (fst (getCanvasDataByNode splitCamelCaseEx splitPathEx envEx nodeEx viewerInit),
   snd (getCanvasDataByNode splitCamelCaseEx splitPathEx envEx nodeEx viewerInit)).
Proof.
  assert (Hreach : viewer_reachable splitCamelCaseEx splitPathEx envEx viewerInit).
  { exists 100%positive. apply rtc_refl. }
  split; [exact Hreach|].
  apply (getCanvasDataByNode_cached splitCamelCaseEx splitPathEx envEx
           viewerInit nodeEx _ Hreach (rtc_refl _ _)).
Defined.

(** C9 on the state after the first frame resolved, in binary64. *)
Lemma needsUpdate_cleared_witness :
  inspector_reachable easeByFactor
    (resolvedInspector easeByFactor (hostTwo 0.1%float) tenthsFrame newInspector) ∧
  needsUpdate (displayCycle_text
    (resolvedInspector easeByFactor (hostTwo 0.1%float) tenthsFrame newInspector)) = false ∧
  needsUpdate (displayCycle_graph
    (resolvedInspector easeByFactor (hostTwo 0.1%float) tenthsFrame newInspector)) = false.
Proof.
  assert (Hreach : inspector_reachable easeByFactor
            (resolvedInspector easeByFactor (hostTwo 0.1%float) tenthsFrame newInspector)).
  { apply reach_resolveFrame. apply reach_new. }
  split; [exact Hreach|]. exact (needsUpdate_cleared easeByFactor _ Hreach).
Defined.

(** C10 on the heap that holds the chain A > B > C. *)
Lemma resolveStats_terminates_witness :
  represents heapABC 1%positive chainABC ∧
  (height chainABC ≤ 3)%nat ∧
  resolveStatsAt 3 heapABC 1%positive ∅ = Some (resolveStats chainABC ∅).
Proof.
  assert (Hrep : represents heapABC 1%positive chainABC).
  { apply (represents_node heapABC _ _ _ _ [2%positive]); [reflexivity|].
    constructor; [|constructor].
    apply (represents_node heapABC _ _ _ _ [3%positive]); [reflexivity|].
    constructor; [|constructor].
    apply (represents_node heapABC _ _ _ _ []); [reflexivity|constructor]. }
  assert (Hle : (height chainABC ≤ 3)%nat) by (simpl; lia).
  split; [exact Hrep|]. split; [exact Hle|].
  exact (proj1 (resolveStats_terminates heapABC 1%positive ∅) chainABC 3%nat Hrep Hle).
Defined.

(** X2: a tree without call id B leaves the entry under B alone. *)
Lemma resolveStats_writes_its_cids_only_witness :
  ("B" ∉ cids sharedAA) ∧
  resolveStats sharedAA (resolveStats chainABC ∅) !! "B" = resolveStats chainABC ∅ !! "B".
Proof.
  assert (Hout : "B" ∉ cids sharedAA).
  { intros Hin. repeat (apply elem_of_cons in Hin as [Hin|Hin]; [discriminate|]).
    by apply elem_of_nil in Hin. }
  split; [exact Hout|].
  exact (resolveStats_writes_its_cids_only sharedAA (resolveStats chainABC ∅) "B" Hout).
Defined.

(** X3 on the chain A > B > C. *)
Lemma resolveStats_idempotent_witness :
  NoDup (cids chainABC) ∧
  resolveStats chainABC (resolveStats chainABC ∅) = resolveStats chainABC ∅.
Proof.
  assert (Hnd : NoDup (cids chainABC)).
  { apply (bool_decide_unpack _). vm_compute. reflexivity. }
  split; [exact Hnd|]. exact (resolveStats_idempotent chainABC ∅ Hnd).
Defined.

(** X4 on a frame of 0.1: the graph cycle fires and the text cycle does not. *)
Lemma resolveFrame_ui_calls_witness :
  getFrameById (hostTwo 0.1%float) (frameId tenthsFrame + 1) = Some frameTwo ∧
  map uiKind (uiCalls easeByFactor (hostTwo 0.1%float) tenthsFrame newInspector) =
    [CallUpdateGraph].
Proof.
  split; [reflexivity|].
  exact (resolveFrame_ui_calls easeByFactor (hostTwo 0.1%float) tenthsFrame newInspector
           frameTwo eq_refl).
Defined.

(** X8 on the root of the two siblings X and Y, in binary64. *)
Lemma resolveStats_sums_over_children_witness :
  NoDup (cids siblingsXY) ∧ siblingsXY ∈ nodes siblingsXY ∧
  field data_total "R" (resolveStats siblingsXY ∅) =
    val_add (val_add (Some (0.1 + 0)%float) (field data_total "X" (resolveStats siblingsXY ∅)))
            (field data_total "Y" (resolveStats siblingsXY ∅)).
Proof.
  assert (Hnd : NoDup (cids siblingsXY)).
  { apply (bool_decide_unpack _). vm_compute. reflexivity. }
  assert (Hin : siblingsXY ∈ nodes siblingsXY) by apply self_elem_of_nodes.
  split; [exact Hnd|]. split; [exact Hin|].
  exact (proj2 (proj2 (resolveStats_sums_over_children siblingsXY ∅ siblingsXY Hnd Hin))).
Defined.

(** X5 on a store that holds an entry under the key. *)
Lemma getStatsData_get_or_create_witness :
  storeA !! "a" = Some entryA ∧ getStatsData "a" storeA = (entryA, storeA).
Proof.
  assert (Hd : storeA !! "a" = Some entryA) by apply lookup_insert_eq.
  split; [exact Hd|].
  exact (proj1 (getStatsData_get_or_create "a" storeA) entryA Hd).
Defined.

(** X6 on a sample object that is its own child. *)
Lemma resolveStatsAt_cyclic_witness :
  (∀ x, x = 1%positive →
     ∃ o y, heapLoop !! x = Some o ∧ y ∈ obj_children o ∧ y = 1%positive) ∧
  resolveStatsAt 1000 heapLoop 1%positive ∅ = None.
Proof.
  assert (Hloop : ∀ x, x = 1%positive →
            ∃ o y, heapLoop !! x = Some o ∧ y ∈ obj_children o ∧ y = 1%positive).
  { intros x ->. exists (mkSampleObj "A" 1%float 0%float [1%positive]), 1%positive.
    repeat split. by apply list_elem_of_singleton. }
  split; [exact Hloop|].
  exact (resolveStatsAt_cyclic heapLoop (λ x, x = 1%positive) Hloop 1000%nat
           1%positive ∅ eq_refl).
Defined.

(** X7 on the frame with tenths of milliseconds. *)
Lemma miscellaneous_binary64_witness :
  getFrameById (hostTwo 0.1%float) (frameId tenthsFrame + 1) = Some frameTwo ∧
  ∃ m, frame_miscellaneous
         (resolvedFrame easeByFactor (hostTwo 0.1%float) tenthsFrame newInspector) = Some m ∧
       (Prim2SF m = S754_nan ∨ PrimFloat.leb 0%float m = true).
Proof.
  split; [reflexivity|].
  exact (miscellaneous_binary64 easeByFactor (hostTwo 0.1%float) tenthsFrame frameTwo
           newInspector eq_refl).
Defined.

(** X10 on three calls, one of them repeated. *)
Lemma resolveConsoleOnce_sends_each_call_once_witness :
  Forall (λ c, handled c.1) callsEx ∧ handled "log" ∧
  NoDup (consoleOut (onceCalls callsEx newConsole)) ∧
  (AddMessage (levelOf "log") "ready" ∈ consoleOut (onceCalls callsEx newConsole) ↔
   ("log", "ready") ∈ callsEx).
Proof.
  assert (Hcalls : Forall (λ c, handled c.1) callsEx).
  { unfold callsEx.
    repeat (apply List.Forall_cons; [unfold handled; simpl; auto|]). apply List.Forall_nil. }
  assert (Hh : handled "log") by (by left).
  split; [exact Hcalls|]. split; [exact Hh|].
  exact (resolveConsoleOnce_sends_each_call_once callsEx "log" "ready" Hcalls Hh).
Defined.

(** X11: a call with the type [lo] silences the message [": ready"] of
    type [log]. *)
Lemma resolveConsoleOnce_key_is_concatenation_witness :
  (handled "lo" ∨ handled "log") ∧
  "lo" +:+ "g: ready" = "log" +:+ ": ready" ∧
  resolveConsoleOnce "log" ": ready" (resolveConsoleOnce "lo" "g: ready" newConsole) =
    resolveConsoleOnce "lo" "g: ready" newConsole.
Proof.
  assert (Hh : handled "lo" ∨ handled "log") by (right; by left).
  split; [exact Hh|]. split; [reflexivity|].
  exact (resolveConsoleOnce_key_is_concatenation "lo" "g: ready" "log" ": ready"
           newConsole Hh eq_refl).
Defined.

(** X13 on three nodes, the first shown twice, from an empty cache. *)
Lemma resolveViewer_bundles_witness :
  viewer_reachable splitCamelCaseEx splitPathEx envEx viewerInit ∧
  isWebGPUBackend rendererGPU = true ∧
  [nodeEx; nodeEx2; nodeEx] ≠ [] ∧
  ∃ vst' canvasDataList,
    resolveViewer splitCamelCaseEx splitPathEx envEx rendererGPU [nodeEx; nodeEx2; nodeEx]
      false viewerInit newConsole =
      (vst', newConsole, ([ViewerShow] ++ [ViewerUpdate canvasDataList])%list) ∧
    Forall2 (λ node cd, cd_node cd = node_ref node ∧
                        canvasNodes vst' !! node_ref node = Some cd)
            [nodeEx; nodeEx2; nodeEx] canvasDataList.
Proof.
  assert (Hreach : viewer_reachable splitCamelCaseEx splitPathEx envEx viewerInit).
  { exists 100%positive. apply rtc_refl. }
  assert (Hne : [nodeEx; nodeEx2; nodeEx] ≠ []) by discriminate.
  split; [exact Hreach|]. split; [reflexivity|]. split; [exact Hne|].
  exact (resolveViewer_bundles splitCamelCaseEx splitPathEx envEx rendererGPU
           [nodeEx; nodeEx2; nodeEx] false viewerInit newConsole Hreach eq_refl Hne).
Defined.

(** X14 on the same two nodes, renamed for the second call, with an
    allocation in between. *)
Lemma resolveViewer_again_witness :
  isWebGPUBackend rendererGPU = true ∧
  [nodeEx; nodeEx2] ≠ [] ∧
  map node_ref [mkNodeObj 7%positive 1%Z None; mkNodeObj 8%positive 2%Z (Some "normal")] =
    map node_ref [nodeEx; nodeEx2] ∧
  ∃ vst'',
    rtc (viewer_step splitCamelCaseEx splitPathEx envEx)
      (resolveViewer splitCamelCaseEx splitPathEx envEx rendererGPU [nodeEx; nodeEx2]
         false viewerInit newConsole).1.1 vst'' ∧
    ∃ canvasDataList,
      (resolveViewer splitCamelCaseEx splitPathEx envEx rendererGPU [nodeEx; nodeEx2]
         false viewerInit newConsole).2 =
        ([ViewerShow] ++ [ViewerUpdate canvasDataList])%list ∧
      (resolveViewer splitCamelCaseEx splitPathEx envEx rendererGPU
         [mkNodeObj 7%positive 1%Z None; mkNodeObj 8%positive 2%Z (Some "normal")]
         true vst'' newConsole).2 =
        ([] ++ [ViewerUpdate canvasDataList])%list ∧
      canvasNodes
        (resolveViewer splitCamelCaseEx splitPathEx envEx rendererGPU
           [mkNodeObj 7%positive 1%Z None; mkNodeObj 8%positive 2%Z (Some "normal")]
           true vst'' newConsole).1.1 = canvasNodes vst''.
Proof.
  assert (Hne : [nodeEx; nodeEx2] ≠ []) by discriminate.
  split; [reflexivity|]. split; [exact Hne|]. split; [reflexivity|].
  eexists. split; [apply rtc_once, step_alloc|].
  exact (resolveViewer_again splitCamelCaseEx splitPathEx envEx rendererGPU
           [nodeEx; nodeEx2]
           [mkNodeObj 7%positive 1%Z None; mkNodeObj 8%positive 2%Z (Some "normal")]
           false true viewerInit _ newConsole newConsole eq_refl Hne eq_refl
           (rtc_once _ _ (step_alloc _ _ _ _))).
Defined.

(** X15 on WebGL2: a frame without nodes, then two frames with a node. *)
Lemma resolveViewer_without_webgpu_witness :
  isWebGPUBackend rendererGL = false ∧
  ∃ cst',
    resolveViewerFrames splitCamelCaseEx splitPathEx envEx rendererGL
      [([], false); ([nodeEx], false); ([nodeEx; nodeEx2], false)] viewerInit newConsole =
      (viewerInit, cst', []) ∧
    consoleOut cst' = [AddMessage "warn" viewerWarning; ConsoleWarn viewerWarning].
Proof.
  split; [reflexivity|].
  exact (resolveViewer_without_webgpu splitCamelCaseEx splitPathEx envEx rendererGL
           [([], false); ([nodeEx], false); ([nodeEx; nodeEx2], false)] viewerInit eq_refl).
Defined.

(** X16 on three nodes of which two are distinct. *)
Lemma resolveViewer_caches_the_nodes_shown_witness :
  isWebGPUBackend rendererGPU = true ∧
  (∀ r, r ∈ dom (canvasNodes (resolveViewer splitCamelCaseEx splitPathEx envEx rendererGPU
                                [nodeEx; nodeEx2; nodeEx] false viewerInit newConsole).1.1) ↔
        r ∈ map node_ref [nodeEx; nodeEx2; nodeEx] ∨ r ∈ dom (canvasNodes viewerInit)) ∧
  (∀ r cd, canvasNodes viewerInit !! r = Some cd →
           canvasNodes (resolveViewer splitCamelCaseEx splitPathEx envEx rendererGPU
                          [nodeEx; nodeEx2; nodeEx] false viewerInit newConsole).1.1 !! r
             = Some cd).
Proof.
  split; [reflexivity|].
  exact (resolveViewer_caches_the_nodes_shown splitCamelCaseEx splitPathEx envEx rendererGPU
           [nodeEx; nodeEx2; nodeEx] false viewerInit newConsole eq_refl).
Defined.

(** X18 on two top-level samples with the same call id, in binary64. *)
Lemma resolveFrame_totals_witness :
  getFrameById (hostTwo 0.1%float) (frameId frameShared + 1) = Some frameTwo ∧
  Forall nestedDistinct (frame_children frameShared) ∧
  frame_cpu (resolvedFrame easeByFactor (hostTwo 0.1%float) frameShared newInspector) =
    Some (fold_left (λ t s, num_add t (treeSum cpu s)) (frame_children frameShared) num_zero) ∧
  frame_gpu (resolvedFrame easeByFactor (hostTwo 0.1%float) frameShared newInspector) =
    Some (fold_left (λ t s, num_add t (treeSum gpu s)) (frame_children frameShared) num_zero) ∧
  frame_total (resolvedFrame easeByFactor (hostTwo 0.1%float) frameShared newInspector) =
    Some (fold_left (λ t s, num_add t (treeSum ownTotal s)) (frame_children frameShared)
            num_zero).
Proof.
  assert (Hcs : Forall nestedDistinct (frame_children frameShared)).
  { repeat constructor; apply not_elem_of_nil. }
  split; [reflexivity|]. split; [exact Hcs|].
  exact (resolveFrame_totals easeByFactor (hostTwo 0.1%float) frameShared newInspector
           frameTwo eq_refl Hcs).
Defined.

(** X20 after one resolved frame, in exact rationals. *)
Lemma displayCycle_time_below_duration_witness :
  num_ltb num_zero (lit_0_25 (A:=Qc)) = true ∧
  num_ltb num_zero (lit_0_05 (A:=Qc)) = true ∧
  inspector_reachable easeByFactor (resolvedInspector easeByFactor hostQc frameQc newInspector) ∧
  duration (displayCycle_text (resolvedInspector easeByFactor hostQc frameQc newInspector))
    = lit_0_25 ∧
  duration (displayCycle_graph (resolvedInspector easeByFactor hostQc frameQc newInspector))
    = lit_0_05 ∧
  num_ltb (time (displayCycle_text (resolvedInspector easeByFactor hostQc frameQc newInspector)))
          (duration (displayCycle_text (resolvedInspector easeByFactor hostQc frameQc newInspector)))
    = true ∧
  num_ltb (time (displayCycle_graph (resolvedInspector easeByFactor hostQc frameQc newInspector)))
          (duration (displayCycle_graph (resolvedInspector easeByFactor hostQc frameQc newInspector)))
    = true.
Proof.
  assert (H25 : num_ltb num_zero (lit_0_25 (A:=Qc)) = true) by (vm_compute; reflexivity).
  assert (H05 : num_ltb num_zero (lit_0_05 (A:=Qc)) = true) by (vm_compute; reflexivity).
  assert (Hreach : inspector_reachable easeByFactor
                     (resolvedInspector easeByFactor hostQc frameQc newInspector)).
  { apply reach_resolveFrame, reach_new. }
  split; [exact H25|]. split; [exact H05|]. split; [exact Hreach|].
  exact (displayCycle_time_below_duration easeByFactor _ H25 H05 Hreach).
Defined.

(** X21 on the frame with tenths of milliseconds: 50 frames a second. *)
Lemma fps_after_resolveFrame_witness :
  getFrameById (hostTwo 0.1%float) (frameId tenthsFrame + 1) = Some frameTwo ∧
  fps (resolvedInspector easeByFactor (hostTwo 0.1%float) tenthsFrame newInspector) =
    Some (1000 / (startTime frameTwo - startTime tenthsFrame))%float.
Proof.
  split; [reflexivity|].
  exact (proj1 (fps_after_resolveFrame easeByFactor (hostTwo 0.1%float) tenthsFrame
                  newInspector frameTwo eq_refl)).
Defined.

End Witnesses.
